(** * tooz: the Redis coordination driver ([tooz/drivers/redis.py])

    A shallow embedding of [RedisLock], [RedisDriver] and
    [RedisFutureResult], and the properties of the driver's group
    operations, lock bookkeeping, asynchronous results and watchers.

    Conventions.
    - Python strings (group ids, member ids, keys, blobs) are [string].
    - A Python call either returns, raises, or never returns: [result].
    - Mutable objects live in a [world] that every call threads through.
    - The Redis server's hashes and sets are modelled by their contents;
      the replies of the lock primitive and of PING depend on leases, time
      and other clients, so they are inputs given by the environment. *)

From stdpp Require Import gmap strings list fin_maps.
From Stdlib Require Import QArith Qminmax.

Local Close Scope Q_scope.
Local Open Scope string_scope.
Local Open Scope list_scope.

(** ** Exceptions and results *)

(** The exception classes the driver raises, catches or translates.
    [RedisLockError] and [RedisResponseError] are [exceptions.RedisError]s
    that are neither connection nor timeout errors.
    [MsgpackPackException] is [msgpack.PackException]; [TypeError] is
    what [msgpack.dumps] raises for an object it has no encoding for. *)
Inductive exn : Type :=
  | RedisConnectionError
  | RedisTimeoutError
  | RedisLockError
  | RedisResponseError
  | FuturesTimeoutError
  | ToozConnectionError
  | ToozError
  | OperationTimedOut
  | GroupAlreadyExist (group_id : string)
  | GroupNotCreated (group_id : string)
  | MemberAlreadyExist (group_id member_id : string)
  | MemberNotJoined (group_id member_id : string)
  | ValueError
  | AttributeError
  | ToozNotImplemented
  | MsgpackPackException
  | TypeError.

#[global] Instance exn_eq_dec : EqDecision exn.
Proof. solve_decision. Defined.

(** [exceptions.RedisError] and its subclasses. *)
Definition is_RedisError (e : exn) : bool :=
  match e with
  | RedisConnectionError | RedisTimeoutError
  | RedisLockError | RedisResponseError => true
  | _ => false
  end.

(** [coordination.ToozError] and its subclasses. *)
Definition is_ToozError (e : exn) : bool :=
  match e with
  | ToozConnectionError | ToozError | OperationTimedOut
  | GroupAlreadyExist _ | GroupNotCreated _
  | MemberAlreadyExist _ _ | MemberNotJoined _ _ => true
  | _ => false
  end.

(** The outcome of a call: a value, an exception, or a call that never
    returns (a wait without a bound on work that never completes). *)
Inductive result (A : Type) : Type :=
  | Ok (a : A)
  | Raise (e : exn)
  | Blocked.
Arguments Ok {A} a.
Arguments Raise {A} e.
Arguments Blocked {A}.

(** [_translate_failures]: the context manager, as a function on the
    outcome of its body. *)
Definition _translate_failures {A} (body : result A) : result A :=
  match body with
  | Raise RedisConnectionError | Raise RedisTimeoutError =>
      Raise ToozConnectionError
  | Raise e => if is_RedisError e then Raise ToozError else Raise e
  | r => r
  end.

(** ** The Redis server: keys holding hashes and sets *)

Inductive rvalue : Type :=
  | RHash (h : gmap string string)
  | RSet (s : gset string).

Module Redis.

(** Commands run by a pipeline that is watching keys are sent at once
    (the transaction bodies below test their replies), so each command
    is a function from the server's keys to a reply and the new keys. A
    command on a key of the wrong type is refused with a response
    error. Every command reaches the server and is answered: a
    connection lost between two commands of one transaction body is not
    modelled. *)

Definition exists_ (k : string) (db : gmap string rvalue) : bool :=
  bool_decide (is_Some (db !! k)).

(** HSET: 1 when the field is new, 0 when it existed and its value was
    overwritten. *)
Definition hset (k f v : string) (db : gmap string rvalue)
  : result Z * gmap string rvalue :=
  match db !! k with
  | None => (Ok 1%Z, <[k := RHash {[f := v]}]> db)
  | Some (RHash h) =>
      (Ok (if h !! f is Some _ then 0%Z else 1%Z), <[k := RHash (<[f := v]> h)]> db)
  | Some (RSet _) => (Raise RedisResponseError, db)
  end.

(** HDEL: the number of fields removed; a hash left without fields is
    deleted by the server. *)
Definition hdel (k f : string) (db : gmap string rvalue)
  : result Z * gmap string rvalue :=
  match db !! k with
  | None => (Ok 0%Z, db)
  | Some (RHash h) =>
      match h !! f with
      | None => (Ok 0%Z, db)
      | Some _ =>
          let h' := delete f h in
          (Ok 1%Z,
           if decide (h' = ∅) then delete k db else <[k := RHash h']> db)
      end
  | Some (RSet _) => (Raise RedisResponseError, db)
  end.

Definition hexists (k f : string) (db : gmap string rvalue) : result bool :=
  match db !! k with
  | None => Ok false
  | Some (RHash h) => Ok (bool_decide (is_Some (h !! f)))
  | Some (RSet _) => Raise RedisResponseError
  end.

Definition hget (k f : string) (db : gmap string rvalue)
  : result (option string) :=
  match db !! k with
  | None => Ok None
  | Some (RHash h) => Ok (h !! f)
  | Some (RSet _) => Raise RedisResponseError
  end.

Definition hkeys (k : string) (db : gmap string rvalue)
  : result (list string) :=
  match db !! k with
  | None => Ok []
  | Some (RHash h) => Ok (fst <$> map_to_list h)
  | Some (RSet _) => Raise RedisResponseError
  end.

Definition sadd (k x : string) (db : gmap string rvalue)
  : result Z * gmap string rvalue :=
  match db !! k with
  | None => (Ok 1%Z, <[k := RSet {[x]}]> db)
  | Some (RSet s) =>
      (Ok (if decide (x ∈ s) then 0%Z else 1%Z), <[k := RSet ({[x]} ∪ s)]> db)
  | Some (RHash _) => (Raise RedisResponseError, db)
  end.

Definition smembers (k : string) (db : gmap string rvalue)
  : result (list string) :=
  match db !! k with
  | None => Ok []
  | Some (RSet s) => Ok (elements s)
  | Some (RHash _) => Raise RedisResponseError
  end.

End Redis.

(** ** Objects: locks, the driver, and the world they live in *)

(** Events handed to watcher callbacks. *)
Inductive event : Type :=
  | MemberJoinedGroup (group_id member_id : string)
  | MemberLeftGroup (group_id member_id : string).

#[global] Instance event_eq_dec : EqDecision event.
Proof. solve_decision. Defined.

(** The [blocking] argument of [RedisLock.acquire]: [True], [False], or
    a duration in seconds. *)
Inductive blocking_arg : Type :=
  | BTrue
  | BFalse
  | BDuration (seconds : Q).

(** Requests whose reply is given by the environment. *)
Inductive store_call : Type :=
  | Ping
  | LockAcquire (name : string) (blocking : bool) (blocking_timeout : option Q)
  | LockRelease (name : string)
  | LockExtend (name : string) (additional_time : Z).

(** A [RedisLock] object; [_coord] is the one driver of the world. *)
Record RedisLock : Type := mkRedisLock {
  _name : string;
  _lock_timeout : Z;
  _acquired : bool;
}.

Inductive executor : Type := ExecutorRunning | ExecutorShutdown.

(** A [RedisDriver] object. Locks and callbacks are referred to by the
    identity of the object ([nat]); [_group_members] and the two hook
    tables are the base class's [defaultdict]s. *)
Record RedisDriver : Type := mkRedisDriver {
  _member_id : string;
  _namespace : string;
  lock_timeout : Z;
  _client : bool;
  _executor : option executor;
  _started : bool;
  _acquired_locks : gset nat;
  _joined_groups : gset string;
  _group_members : gmap string (gset string);
  _hooks_join_group : gmap string (list nat);
  _hooks_leave_group : gmap string (list nat);
}.

Definition set_acquired_locks (f : gset nat -> gset nat) (d : RedisDriver) :=
  mkRedisDriver (_member_id d) (_namespace d) (lock_timeout d) (_client d)
    (_executor d) (_started d) (f (_acquired_locks d)) (_joined_groups d)
    (_group_members d) (_hooks_join_group d) (_hooks_leave_group d).

Definition set_joined_groups (f : gset string -> gset string) (d : RedisDriver) :=
  mkRedisDriver (_member_id d) (_namespace d) (lock_timeout d) (_client d)
    (_executor d) (_started d) (_acquired_locks d) (f (_joined_groups d))
    (_group_members d) (_hooks_join_group d) (_hooks_leave_group d).

Definition set_group_members
    (f : gmap string (gset string) -> gmap string (gset string))
    (d : RedisDriver) :=
  mkRedisDriver (_member_id d) (_namespace d) (lock_timeout d) (_client d)
    (_executor d) (_started d) (_acquired_locks d) (_joined_groups d)
    (f (_group_members d)) (_hooks_join_group d) (_hooks_leave_group d).

Definition set_hooks_join_group
    (f : gmap string (list nat) -> gmap string (list nat)) (d : RedisDriver) :=
  mkRedisDriver (_member_id d) (_namespace d) (lock_timeout d) (_client d)
    (_executor d) (_started d) (_acquired_locks d) (_joined_groups d)
    (_group_members d) (f (_hooks_join_group d)) (_hooks_leave_group d).

Definition set_hooks_leave_group
    (f : gmap string (list nat) -> gmap string (list nat)) (d : RedisDriver) :=
  mkRedisDriver (_member_id d) (_namespace d) (lock_timeout d) (_client d)
    (_executor d) (_started d) (_acquired_locks d) (_joined_groups d)
    (_group_members d) (_hooks_join_group d) (f (_hooks_leave_group d)).

(** The state a call runs in: the server's keys, the driver, the lock
    objects, and the requests sent so far to the lock primitive and to
    PING (most recent first). *)
Record world : Type := mkWorld {
  store : gmap string rvalue;
  coord : RedisDriver;
  heap : gmap nat RedisLock;
  calls : list store_call;
}.

Definition set_store (db : gmap string rvalue) (w : world) : world :=
  mkWorld db (coord w) (heap w) (calls w).
Definition set_coord (d : RedisDriver) (w : world) : world :=
  mkWorld (store w) d (heap w) (calls w).
Definition set_heap (h : gmap nat RedisLock) (w : world) : world :=
  mkWorld (store w) (coord w) h (calls w).
Definition log_call (c : store_call) (w : world) : world :=
  mkWorld (store w) (coord w) (heap w) (c :: calls w).

(** ** Calls as state transformers *)

Definition M (A : Type) : Type := world -> result A * world.

Definition ret {A} (a : A) : M A := fun w => (Ok a, w).
Definition raise {A} (e : exn) : M A := fun w => (Raise e, w).
Definition lift {A} (r : result A) : M A := fun w => (r, w).

(** Sequencing: an exception (or a call that never returns) stops the
    rest; what was written before it stays written. *)
Definition bind {A B} (c : M A) (k : A -> M B) : M B :=
  fun w =>
    match c w with
    | (Ok a, w') => k a w'
    | (Raise e, w') => (Raise e, w')
    | (Blocked, w') => (Blocked, w')
    end.

Notation "x <- c1 ;; c2" := (bind c1 (fun x => c2))
  (at level 100, c1 at next level, right associativity).
Notation "c1 ;;; c2" := (bind c1 (fun _ => c2))
  (at level 100, right associativity).

Definition get_coord : M RedisDriver := fun w => (Ok (coord w), w).
Definition modify_coord (f : RedisDriver -> RedisDriver) : M unit :=
  fun w => (Ok tt, set_coord (f (coord w)) w).
Definition send (c : store_call) : M unit := fun w => (Ok tt, log_call c w).

(** A command that reads the server's keys, and one that changes them. *)
Definition query {A} (q : gmap string rvalue -> A) : M A :=
  fun w => (Ok (q (store w)), w).
Definition query_r {A} (q : gmap string rvalue -> result A) : M A :=
  fun w => (q (store w), w).
Definition command {A}
    (c : gmap string rvalue -> result A * gmap string rvalue) : M A :=
  fun w => let '(r, db) := c (store w) in (r, set_store db w).

(** [with _translate_failures(): body]. *)
Definition with_translate_failures {A} (body : M A) : M A :=
  fun w => let '(r, w') := body w in (_translate_failures r, w').

(** ** [RedisLock] *)

Module Lock.

(** A reference to a lock object; a reference obtained from [get_lock]
    always points into the heap. *)
Definition deref (l : nat) : M RedisLock :=
  fun w =>
    match heap w !! l with
    | Some o => (Ok o, w)
    | None => (Raise AttributeError, w)
    end.

Definition set_acquired (l : nat) (b : bool) : M unit :=
  fun w =>
    (Ok tt,
     set_heap (alter (fun o => mkRedisLock (_name o) (_lock_timeout o) b)
                 l (heap w)) w).

(** [acquire(blocking)]; [reply] is what the store's lock answers to
    [self._lock.acquire(...)]. *)
Definition acquire (l : nat) (blocking : blocking_arg) (reply : result bool)
  : M bool :=
  o <- deref l ;;
  let '(blocking', blocking_timeout) :=
    match blocking with
    | BTrue => (true, None)
    | BFalse => (false, None)
    | BDuration s => (true, Some s)
    end in
  with_translate_failures
    (send (LockAcquire (_name o) blocking' blocking_timeout) ;;;
     got <- lift reply ;;
     set_acquired l got ;;;
     (if got
      then modify_coord (set_acquired_locks (fun s => {[l]} ∪ s))
      else ret tt) ;;;
     ret got).

(** [release()]; [reply] is what the store's lock answers to
    [self._lock.release()]. *)
Definition release (l : nat) (reply : result unit) : M bool :=
  o <- deref l ;;
  if negb (_acquired o) then ret false
  else
    with_translate_failures
      (send (LockRelease (_name o)) ;;;
       match reply with
       | Raise RedisLockError => ret false
       | _ =>
           lift reply ;;;
           modify_coord (set_acquired_locks (fun s => s ∖ {[l]})) ;;;
           set_acquired l false ;;;
           ret true
       end).

(** [heartbeat()]; [reply] is what the store's lock answers to
    [self._lock.extend(self._lock.timeout)]. *)
Definition heartbeat (l : nat) (reply : result unit) : M unit :=
  o <- deref l ;;
  if _acquired o
  then with_translate_failures
         (send (LockExtend (_name o) (_lock_timeout o)) ;;; lift reply)
  else ret tt.

End Lock.

(** ** [RedisDriver]: locks and heartbeat *)

Definition _GROUP_EXISTS : string := "__created__".
Definition _NAMESPACE_SEP : string := ":".

(** [self._client.<method>]: an attribute of [None] before [_start]. *)
Definition the_client : M unit :=
  fun w => if _client (coord w) then (Ok tt, w) else (Raise AttributeError, w).

(** [get_lock(name)]: [RedisLock(self, self._client, name,
    self.lock_timeout)]. The constructor names the lock
    ["%s_%s_lock" % (namespace, name)] and calls [client.lock(...)], which
    fails on the [None] client of a driver that is not started; with a
    client it makes a new lock object, without a request to the store. *)
Definition get_lock (name : string) : M nat :=
  the_client ;;;
  fun w =>
    let l := fresh (dom (heap w)) in
    let o := mkRedisLock (_namespace (coord w) +:+ "_" +:+ name +:+ "_lock")
               (lock_timeout (coord w)) false in
    (Ok l, set_heap (<[l := o]> (heap w)) w).

(** [try: lock.heartbeat() except coordination.ToozError: LOG.warning]
    for each held lock. *)
Fixpoint heartbeat_locks (ls : list nat) (extend_reply : nat -> result unit)
  : M unit :=
  match ls with
  | [] => ret tt
  | l :: ls' =>
      fun w =>
        match Lock.heartbeat l (extend_reply l) w with
        | (Ok _, w') => heartbeat_locks ls' extend_reply w'
        | (Raise e, w') =>
            if is_ToozError e then heartbeat_locks ls' extend_reply w'
            else (Raise e, w')
        | (Blocked, w') => (Blocked, w')
        end
  end.

(** [heartbeat()]: PING, then a heartbeat of every lock in
    [_acquired_locks]. *)
Definition heartbeat (ping_reply : result unit)
    (extend_reply : nat -> result unit) : M unit :=
  with_translate_failures (the_client ;;; send Ping ;;; lift ping_reply) ;;;
  d <- get_coord ;;
  heartbeat_locks (elements (_acquired_locks d)) extend_reply.

(** [__init__(member_id, parsed_url, options)], with the options the
    driver reads given directly. *)
Definition RedisDriver_init (member_id namespace : string) (lock_timeout : Z)
  : RedisDriver :=
  mkRedisDriver member_id namespace lock_timeout false None false ∅ ∅ ∅ ∅ ∅.

Definition set_lifecycle (client : bool) (ex : option executor) (started : bool)
    (d : RedisDriver) :=
  mkRedisDriver (_member_id d) (_namespace d) (lock_timeout d) client
    ex started (_acquired_locks d) (_joined_groups d)
    (_group_members d) (_hooks_join_group d) (_hooks_leave_group d).

(** [_start()]: the executor and the client are made (making the client
    is taken to succeed), then one heartbeat checks the server. *)
Definition _start (ping_reply : result unit)
    (extend_reply : nat -> result unit) : M unit :=
  modify_coord (fun d => set_lifecycle (_client d) (Some ExecutorRunning)
                           (_started d) d) ;;;
  modify_coord (fun d => set_lifecycle true (_executor d) (_started d) d) ;;;
  heartbeat ping_reply extend_reply ;;;
  modify_coord (fun d => set_lifecycle (_client d) (_executor d) true d).

(** ** Futures and [RedisFutureResult] *)

(** A [concurrent.futures.Future]: the work is finished [completes_in]
    seconds from now ([None]: never) with [outcome]. *)
Record future (A : Type) : Type := mkFuture {
  completes_in : option Q;
  outcome : result A;
}.
Arguments mkFuture {A} _ _.
Arguments completes_in {A} _.
Arguments outcome {A} _.

(** What a waiting caller observes: how long it was suspended and what it
    got, or that it is suspended for ever. *)
Inductive wait (A : Type) : Type :=
  | Returned (elapsed : Q) (r : result A)
  | BlocksForever.
Arguments Returned {A} elapsed r.
Arguments BlocksForever {A}.

(** [Future.result(timeout)] of the standard library: a finished future
    answers at once; otherwise the caller waits for the work or for
    [timeout] seconds, whichever comes first, and a wait that runs out
    raises [futures.TimeoutError]. [timeout=None] waits without bound. *)
Definition Future_result {A} (fut : future A) (timeout : option Q) : wait A :=
  match completes_in fut, timeout with
  | Some d, None => Returned (Qmax 0 d) (outcome fut)
  | Some d, Some t =>
      if Qle_bool d (Qmax 0 t) then Returned (Qmax 0 d) (outcome fut)
      else Returned (Qmax 0 t) (Raise FuturesTimeoutError)
  | None, Some t => Returned (Qmax 0 t) (Raise FuturesTimeoutError)
  | None, None => BlocksForever
  end.

Definition Future_done {A} (fut : future A) : bool :=
  match completes_in fut with
  | Some d => Qle_bool d 0
  | None => false
  end.

(** [except futures.TimeoutError as e: raise OperationTimedOut(...)]. *)
Definition except_futures_timeout {A} (r : result A) : result A :=
  match r with
  | Raise FuturesTimeoutError => Raise OperationTimedOut
  | r => r
  end.

Module RedisFutureResult.

Definition default_timeout : Q := 10.

(** [get(timeout=10)]: [timeout] is [None] when the caller leaves the
    argument out, [Some None] for an explicit [timeout=None]. *)
Definition get {A} (fut : future A) (timeout : option (option Q)) : wait A :=
  let timeout :=
    match timeout with
    | None => Some default_timeout
    | Some t => t
    end in
  match Future_result fut timeout with
  | Returned elapsed r =>
      Returned elapsed (except_futures_timeout (_translate_failures r))
  | BlocksForever => BlocksForever
  end.

Definition done {A} (fut : future A) : bool := Future_done fut.

End RedisFutureResult.

(** The caller resumes with what the wait returned. *)
Definition resume {A} (wt : wait A) : M A :=
  match wt with
  | Returned _ r => lift r
  | BlocksForever => lift Blocked
  end.

(** [_submit(cb, ...)]: the single worker runs the units of work in the
    order they were submitted, each to its end before the driver's next
    call; an exception of the work is kept in the future. *)
Definition _submit {A} (work : M A) : M (future A) :=
  fun w =>
    if negb (_started (coord w)) then (Raise ToozError, w)
    else
      match _executor (coord w) with
      | None => (Raise AttributeError, w)
      | Some ExecutorShutdown => (Raise ToozError, w)
      | Some ExecutorRunning =>
          let '(r, w') := work w in
          (Ok (mkFuture
                 (match r with Blocked => None | _ => Some 0%Q end) r), w')
      end.

(** [self._client.transaction(func, *watches, value_from_callable=True)]:
    [func] runs on a pipeline that executes its commands at once; the
    retry on a [WatchError] needs another client writing at the same
    time and is not modelled. *)
Definition transaction {A} (func : M A) : M A := func.

(** ** [RedisDriver]: keys and group operations *)

Definition _group_prefix (d : RedisDriver) : string := _namespace d +:+ "_group".
Definition _groups (d : RedisDriver) : string := _namespace d +:+ "_groups".

Definition _encode_member_id (member_id : string) : result string :=
  if decide (member_id = _GROUP_EXISTS) then Raise ValueError
  else Ok member_id.

Definition _decode_member_id (member_id : string) : string := member_id.

Definition _encode_group_id (d : RedisDriver) (group_id : string) : string :=
  _group_prefix d +:+ _NAMESPACE_SEP +:+ group_id.

Section Groups.

(** The msgpack codec. [msgpack_dumps] is [msgpack.dumps]: the blob, or
    the exception it raises. [msgpack_loads] is [msgpack.loads] on a
    stored blob: the data, or [None] when it raises
    [msgpack.UnpackException] or [ValueError]. *)
Context {capabilities : Type}.
Variable msgpack_dumps : capabilities -> result string.
Variable msgpack_loads : string -> option capabilities.

(** [_dumps]: [except (msgpack.PackException, ValueError)] turns these
    two into [ToozError]; any other exception of [msgpack.dumps] goes
    on as it is. *)
Definition _dumps (data : capabilities) : result string :=
  match msgpack_dumps data with
  | Raise MsgpackPackException | Raise ValueError => Raise ToozError
  | r => r
  end.

Definition _loads (blob : string) : result capabilities :=
  match msgpack_loads blob with
  | Some data => Ok data
  | None => Raise ToozError
  end.

(** The transaction bodies. *)

Definition _create_group (group_id encoded_group : string) : M unit :=
  d <- get_coord ;;
  ex <- query (Redis.exists_ encoded_group) ;;
  if ex then raise (GroupAlreadyExist group_id)
  else
    command (Redis.sadd (_groups d) group_id) ;;;
    command (Redis.hset encoded_group _GROUP_EXISTS "1") ;;;
    ret tt.

Definition _update_capabilities (group_id : string) (caps : capabilities)
    (encoded_group encoded_member_id : string) : M unit :=
  d <- get_coord ;;
  ex <- query (Redis.exists_ encoded_group) ;;
  if negb ex then raise (GroupNotCreated group_id)
  else
    joined <- query_r (Redis.hexists encoded_group encoded_member_id) ;;
    if negb joined then raise (MemberNotJoined group_id (_member_id d))
    else
      blob <- lift (_dumps caps) ;;
      command (Redis.hset encoded_group encoded_member_id blob) ;;;
      ret tt.

Definition _leave_group (group_id encoded_group encoded_member_id : string)
  : M unit :=
  d <- get_coord ;;
  ex <- query (Redis.exists_ encoded_group) ;;
  if negb ex then raise (GroupNotCreated group_id)
  else
    c <- command (Redis.hdel encoded_group encoded_member_id) ;;
    if (c =? 0)%Z then raise (MemberNotJoined group_id (_member_id d))
    else modify_coord (set_joined_groups (fun s => s ∖ {[group_id]})).

Definition _get_members (group_id encoded_group : string)
  : M (list string) :=
  ex <- query (Redis.exists_ encoded_group) ;;
  if negb ex then raise (GroupNotCreated group_id)
  else
    fields <- query_r (Redis.hkeys encoded_group) ;;
    ret (_decode_member_id <$>
           filter (fun m => m ≠ _GROUP_EXISTS) fields).

Definition _get_member_capabilities
    (group_id member_id encoded_group encoded_member_id : string)
  : M capabilities :=
  ex <- query (Redis.exists_ encoded_group) ;;
  if negb ex then raise (GroupNotCreated group_id)
  else
    blob <- query_r (Redis.hget encoded_group encoded_member_id) ;;
    match blob with
    | None => raise (MemberNotJoined group_id member_id)
    | Some blob => lift (_loads blob)
    end.

Definition _join_group (group_id : string) (caps : capabilities)
    (encoded_group encoded_member_id : string) : M unit :=
  d <- get_coord ;;
  ex <- query (Redis.exists_ encoded_group) ;;
  if negb ex then raise (GroupNotCreated group_id)
  else
    blob <- lift (_dumps caps) ;;
    c <- command (Redis.hset encoded_group encoded_member_id blob) ;;
    if (c =? 0)%Z then raise (MemberAlreadyExist group_id (_member_id d))
    else modify_coord (set_joined_groups (fun s => {[group_id]} ∪ s)).

Definition _get_groups : M (list string) :=
  d <- get_coord ;;
  query_r (Redis.smembers (_groups d)).

(** The operations: each returns the [RedisFutureResult] of the
    submitted transaction. *)

Definition create_group (group_id : string) : M (future unit) :=
  d <- get_coord ;;
  let encoded_group := _encode_group_id d group_id in
  the_client ;;;
  _submit (transaction (_create_group group_id encoded_group)).

Definition update_capabilities (group_id : string) (caps : capabilities)
  : M (future unit) :=
  d <- get_coord ;;
  let encoded_group := _encode_group_id d group_id in
  encoded_member_id <- lift (_encode_member_id (_member_id d)) ;;
  the_client ;;;
  _submit (transaction
             (_update_capabilities group_id caps encoded_group
                encoded_member_id)).

Definition leave_group (group_id : string) : M (future unit) :=
  d <- get_coord ;;
  let encoded_group := _encode_group_id d group_id in
  encoded_member_id <- lift (_encode_member_id (_member_id d)) ;;
  the_client ;;;
  _submit (transaction
             (_leave_group group_id encoded_group encoded_member_id)).

Definition get_members (group_id : string) : M (future (list string)) :=
  d <- get_coord ;;
  let encoded_group := _encode_group_id d group_id in
  the_client ;;;
  _submit (transaction (_get_members group_id encoded_group)).

Definition get_member_capabilities (group_id member_id : string)
  : M (future capabilities) :=
  d <- get_coord ;;
  let encoded_group := _encode_group_id d group_id in
  encoded_member_id <- lift (_encode_member_id member_id) ;;
  the_client ;;;
  _submit (transaction
             (_get_member_capabilities group_id member_id encoded_group
                encoded_member_id)).

Definition join_group (group_id : string) (caps : capabilities)
  : M (future unit) :=
  d <- get_coord ;;
  let encoded_group := _encode_group_id d group_id in
  encoded_member_id <- lift (_encode_member_id (_member_id d)) ;;
  the_client ;;;
  _submit (transaction
             (_join_group group_id caps encoded_group encoded_member_id)).

Definition get_groups : M (future (list string)) :=
  _submit _get_groups.

(** [op(...).get(timeout)]. *)
Definition get_of {A} (op : M (future A)) (timeout : option (option Q))
  : M A :=
  fut <- op ;;
  resume (RedisFutureResult.get fut timeout).

End Groups.

(** ** [RedisDriver]: watchers *)

(** Modelled from the spec: the base class [CoordinationDriver] and its
    [Hooks] are not part of these sources. [_group_members] is a
    [defaultdict(set)] and the hook tables are [defaultdict(Hooks)]: a
    missing entry reads as empty, which is how both are looked up here.
    [Hooks.run(event)] calls every registered callback with the event, in
    the order of registration, and returns their results; a call is
    recorded as the pair of the callback and the event. *)
Definition snapshot (d : RedisDriver) (group_id : string) : gset string :=
  default ∅ (_group_members d !! group_id).

Definition hooks_of (table : gmap string (list nat)) (group_id : string)
  : list nat :=
  default [] (table !! group_id).

Definition Hooks_run (hooks : list nat) (ev : event) : list (nat * event) :=
  (fun cb => (cb, ev)) <$> hooks.

(** Modelled from the spec: the base class's [watch_join_group] and
    [watch_leave_group] register the callback for the group. *)
Definition base_watch_join_group (group_id : string) (callback : nat)
  : M unit :=
  modify_coord
    (set_hooks_join_group
       (fun t => <[group_id := hooks_of t group_id ++ [callback]]> t)).

Definition base_watch_leave_group (group_id : string) (callback : nat)
  : M unit :=
  modify_coord
    (set_hooks_leave_group
       (fun t => <[group_id := hooks_of t group_id ++ [callback]]> t)).

(** [self._group_members[group_id].update(members.get(timeout=None))]. *)
Definition _init_watch_group (group_id : string) : M unit :=
  members <- get_of (get_members group_id) (Some None) ;;
  modify_coord
    (set_group_members
       (fun gm =>
          <[group_id := default ∅ (gm !! group_id) ∪ list_to_set members]> gm)).

Definition watch_join_group (group_id : string) (callback : nat) : M unit :=
  _init_watch_group group_id ;;;
  base_watch_join_group group_id callback.

Definition watch_leave_group (group_id : string) (callback : nat) : M unit :=
  _init_watch_group group_id ;;;
  base_watch_leave_group group_id callback.

(** The events of one group in a poll: the calls made for the members
    in [current] and not in [old], then for those in [old] and not in
    [current]. *)
Definition group_events (d : RedisDriver) (group_id : string)
    (old current : gset string) : list (nat * event) :=
  flat_map
    (fun member_id =>
       Hooks_run (hooks_of (_hooks_join_group d) group_id)
         (MemberJoinedGroup group_id member_id))
    (elements (current ∖ old))
  ++
  flat_map
    (fun member_id =>
       Hooks_run (hooks_of (_hooks_leave_group d) group_id)
         (MemberLeftGroup group_id member_id))
    (elements (old ∖ current)).

(** The body of the loop of [run_watchers] for one group. *)
Definition run_watchers_group (timeout : option Q) (group_id : string)
  : M (list (nat * event)) :=
  members <- get_of (get_members group_id) (Some timeout) ;;
  d <- get_coord ;;
  let group_members : gset string := list_to_set members in
  let old_group_members := snapshot d group_id in
  let result := group_events d group_id old_group_members group_members in
  modify_coord (set_group_members (fun gm => <[group_id := group_members]> gm)) ;;;
  ret result.

Fixpoint run_watchers_loop (timeout : option Q) (groups : list string)
  : M (list (nat * event)) :=
  match groups with
  | [] => ret []
  | group_id :: groups' =>
      r <- run_watchers_group timeout group_id ;;
      rs <- run_watchers_loop timeout groups' ;;
      ret (r ++ rs)
  end.

(** [run_watchers(timeout=None)]. *)
Definition run_watchers (timeout : option Q) : M (list (nat * event)) :=
  groups <- get_of get_groups (Some timeout) ;;
  run_watchers_loop timeout groups.

(** * Vocabulary of the properties *)

(** ** States of the driver and of the store *)

(** The driver after a successful [_start]. *)
Definition running (d : RedisDriver) : Prop :=
  _started d = true ∧ _executor d = Some ExecutorRunning ∧ _client d = true.

(** The existence sentinel of a group is present in the store. *)
Definition sentinel_present (d : RedisDriver) (db : gmap string rvalue)
    (group_id : string) : bool :=
  match db !! _encode_group_id d group_id with
  | Some (RHash h) => bool_decide (is_Some (h !! _GROUP_EXISTS))
  | _ => false
  end.

(** The members' entries of a group: the fields of its hash. *)
Definition group_hash (d : RedisDriver) (db : gmap string rvalue)
    (group_id : string) : gmap string string :=
  match db !! _encode_group_id d group_id with
  | Some (RHash h) => h
  | _ => ∅
  end.

(** The keys the drivers of one namespace write: the registry holds a
    set, every other key holds a hash with the sentinel in it. *)
Definition wf_entry (d : RedisDriver) (k : string) (v : rvalue) : bool :=
  match v with
  | RSet _ => bool_decide (k = _groups d)
  | RHash h =>
      bool_decide (k ≠ _groups d) && bool_decide (is_Some (h !! _GROUP_EXISTS))
  end.

Definition store_wf (d : RedisDriver) (db : gmap string rvalue) : Prop :=
  map_Forall (fun k v => wf_entry d k v = true) db.

#[global] Instance store_wf_dec d db : Decision (store_wf d db).
Proof. unfold store_wf. apply _. Defined.


(** The group registry as the store holds it. *)
Definition registry (d : RedisDriver) (db : gmap string rvalue) : gset string :=
  match db !! _groups d with
  | Some (RSet s) => s
  | _ => ∅
  end.

(** The store after a group was created in it: the id is in the
    registry and the group's hash holds the sentinel alone. *)
Definition store_after_create (d : RedisDriver) (db : gmap string rvalue)
    (g : string) : gmap string rvalue :=
  <[_encode_group_id d g := RHash {[_GROUP_EXISTS := "1"]}]>
    (<[_groups d := RSet ({[g]} ∪ registry d db)]> db).

(** The member ids in a group's hash: its fields without the
    sentinel. *)
Definition members_of (h : gmap string string) : list string :=
  filter (fun m => m ≠ _GROUP_EXISTS) (fst <$> map_to_list h).

(** Every group of the registry has been created: its sentinel is in the
    store. *)
Definition registry_created (d : RedisDriver) (db : gmap string rvalue)
  : Prop :=
  set_Forall (fun g => sentinel_present d db g = true) (registry d db).

#[global] Instance registry_created_dec d db : Decision (registry_created d db).
Proof. unfold registry_created. apply _. Defined.

(** What the group operations keep true of the store. *)
Definition store_inv (d : RedisDriver) (db : gmap string rvalue) : Prop :=
  store_wf d db ∧ registry_created d db.

(** The members of a group as the store holds them, as a set. *)
Definition current_members (d : RedisDriver) (db : gmap string rvalue)
    (group_id : string) : gset string :=
  list_to_set (members_of (group_hash d db group_id)).

(** The callback calls a poll makes for one group: the store's members
    against the driver's snapshot. *)
Definition poll_events (d : RedisDriver) (db : gmap string rvalue)
    (group_id : string) : list (nat * event) :=
  group_events d group_id (snapshot d group_id)
    (current_members d db group_id).

(** The group an event is about. *)
Definition event_group (ev : event) : string :=
  match ev with
  | MemberJoinedGroup g _ | MemberLeftGroup g _ => g
  end.

(** A registration of either kind. *)
Inductive watch_kind : Type := WatchJoin | WatchLeave.

Definition watch (kind : watch_kind) (group_id : string) (callback : nat)
  : M unit :=
  match kind with
  | WatchJoin => watch_join_group group_id callback
  | WatchLeave => watch_leave_group group_id callback
  end.

(** How often a callback is called with an event in a list of calls. *)
Definition calls_of (cb : nat) (ev : event) (l : list (nat * event)) : nat :=
  length (filter (fun c => c = (cb, ev)) l).

(** ** Scenarios *)

(** A world with an empty server and a driver started with the default
    namespace and timeouts. *)
Definition started_world (member_id : string) : world :=
  snd (_start (Ok tt) (fun _ => Ok tt)
         (mkWorld ∅ (RedisDriver_init member_id "_tooz" 30) ∅ [])).

(** [create_group(g).get()] for each id of a list, in order: the
    outcomes and the world afterwards. *)
Fixpoint create_group_attempts (group_ids : list string) (w : world)
  : list (string * result unit) * world :=
  match group_ids with
  | [] => ([], w)
  | g :: gs =>
      let '(r, w1) := get_of (create_group g) None w in
      let '(rs, w2) := create_group_attempts gs w1 in
      ((g, r) :: rs, w2)
  end.


(** A driver creates a group, joins it with [caps1], and then calls
    [join_group] again with [caps2]: the outcome of the second call, and
    the capabilities read back before and after it. *)
Definition join_twice (member_id group_id caps1 caps2 : string)
  : result unit * result string * result string * gset string * gset string :=
  let w0 := started_world member_id in
  let w1 := snd (get_of (create_group group_id) None w0) in
  let w2 := snd (get_of (join_group (@Ok string) group_id caps1) None w1) in
  let '(r, w3) := get_of (join_group (@Ok string) group_id caps2) None w2 in
  (r,
   fst (get_of (get_member_capabilities (@Some string) group_id member_id)
          None w2),
   fst (get_of (get_member_capabilities (@Some string) group_id member_id)
          None w3),
   _joined_groups (coord w2), _joined_groups (coord w3)).

(** The work of a future is finished within [t] seconds. *)
Definition completes_within {A} (fut : future A) (t : Q) : bool :=
  match completes_in fut with
  | Some d => Qle_bool d (Qmax 0 t)
  | None => false
  end.

(** What the caller gets for a store-native exception of the work. *)
Definition translated (e : exn) : exn :=
  match e with
  | RedisConnectionError | RedisTimeoutError => ToozConnectionError
  | _ => ToozError
  end.

(** The local held flag of a lock object. *)
Definition held_flag (w : world) (l : nat) : option bool :=
  _acquired <$> heap w !! l.

(** The bookkeeping of a lock agrees: it is in [_acquired_locks] exactly
    when its flag is set. *)
Definition held_consistent (w : world) (l : nat) : Prop :=
  l ∈ _acquired_locks (coord w) <-> held_flag w l = Some true.

(** A lock is taken, and then [acquire(blocking=False)] is called on the
    same lock object while the store still holds the lock, so the store
    refuses: the flag and the membership in [_acquired_locks]
    afterwards, what [release()] then answers, and the requests a
    [release()] and a driver [heartbeat()] send after that. *)
Definition acquire_twice (name : string)
  : option bool * bool * result bool * list store_call :=
  let '(l, w1) :=
    match get_lock name (started_world "m1") with
    | (Ok l, w1) => (l, w1)
    | (_, w1) => (0, w1)
    end in
  let w2 := snd (Lock.acquire l BTrue (Ok true) w1) in
  let w3 := snd (Lock.acquire l BFalse (Ok false) w2) in
  let '(r, w4) := Lock.release l (Ok tt) w3 in
  let w5 := snd (heartbeat (Ok tt) (fun _ => Ok tt) w4) in
  (held_flag w3 l, bool_decide (l ∈ _acquired_locks (coord w3)), r,
   take (length (calls w5) - length (calls w3)) (calls w5)).

(** A member joins a group; the driver polls, with no watcher registered
    yet; the member leaves; then the first watcher of the group is
    registered, for leaves, and the driver polls at once. The results:
    the callbacks registered for the group before the registration, the
    snapshot and the store's members after it, and the calls of the poll
    that follows. *)
Definition watch_after_poll (group_id : string) (callback : nat)
  : list nat * list nat * gset string * gset string
    * result (list (nat * event)) :=
  let w0 := started_world "m1" in
  let w1 := snd (get_of (create_group group_id) None w0) in
  let w2 := snd (get_of (join_group (@Ok string) group_id "caps") None w1) in
  let w3 := snd (run_watchers None w2) in
  let w4 := snd (get_of (leave_group group_id) None w3) in
  let w5 := snd (watch_leave_group group_id callback w4) in
  (hooks_of (_hooks_join_group (coord w4)) group_id,
   hooks_of (_hooks_leave_group (coord w4)) group_id,
   snapshot (coord w5) group_id,
   current_members (coord w5) (store w5) group_id,
   fst (run_watchers None w5)).

(** ** The rest of the driver: leader keys, leader watching, [_stop] *)

Definition _leader_prefix (d : RedisDriver) : string :=
  _namespace d +:+ "_leader".

Definition _encode_group_leader (d : RedisDriver) (group_id : string)
  : string :=
  _leader_prefix d +:+ _NAMESPACE_SEP +:+ group_id.

(** [watch_elected_as_leader] and [unwatch_elected_as_leader]. *)
Definition watch_elected_as_leader (group_id : string) (callback : nat)
  : M unit :=
  raise ToozNotImplemented.

Definition unwatch_elected_as_leader (group_id : string) (callback : nat)
  : M unit :=
  raise ToozNotImplemented.




(** ** More vocabulary *)

(** An answer the store can give to a request: a value or one of its own
    errors. *)
Definition store_reply {A} (r : result A) : bool :=
  match r with
  | Ok _ => true
  | Raise e => is_RedisError e
  | Blocked => false
  end.

(** The outcome of a transaction body: a value, a domain error, or an
    error of the store. *)
Definition body_outcome {A} (r : result A) : bool :=
  match r with
  | Ok _ => true
  | Raise e => is_RedisError e || is_ToozError e
  | Blocked => false
  end.

(** [msgpack.dumps] returned, or raised an exception that [_dumps]
    handles. *)
Definition dumps_handled (r : result string) : bool :=
  match r with
  | Ok _ | Raise MsgpackPackException | Raise ValueError => true
  | _ => false
  end.

(** A call that returned, or raised a [ToozError]. *)
Definition tooz_outcome {A} (r : result A) : bool :=
  match r with
  | Ok _ => true
  | Raise e => is_ToozError e
  | Blocked => false
  end.

(** The calls that write to a group, and a sequence of them each
    followed by [get()]. *)
Inductive group_call (capabilities : Type) : Type :=
  | CallCreate (group_id : string)
  | CallJoin (group_id : string) (caps : capabilities)
  | CallLeave (group_id : string)
  | CallUpdate (group_id : string) (caps : capabilities).
Arguments CallCreate {capabilities} group_id.
Arguments CallJoin {capabilities} group_id caps.
Arguments CallLeave {capabilities} group_id.
Arguments CallUpdate {capabilities} group_id caps.

Definition run_call {capabilities : Type}
    (msgpack_dumps : capabilities -> result string)
    (c : group_call capabilities) : M unit :=
  match c with
  | CallCreate g => get_of (create_group g) None
  | CallJoin g caps => get_of (join_group msgpack_dumps g caps) None
  | CallLeave g => get_of (leave_group g) None
  | CallUpdate g caps => get_of (update_capabilities msgpack_dumps g caps) None
  end.

Fixpoint run_calls {capabilities : Type}
    (msgpack_dumps : capabilities -> result string)
    (cs : list (group_call capabilities)) (w : world) : world :=
  match cs with
  | [] => w
  | c :: cs' => run_calls msgpack_dumps cs' (run_call msgpack_dumps c w).2
  end.

(** Every lock of [_acquired_locks] is a lock object. *)
Definition held_locks_allocated (w : world) : Prop :=
  set_Forall (fun l => is_Some (heap w !! l)) (_acquired_locks (coord w)).

#[global] Instance held_locks_allocated_dec w : Decision (held_locks_allocated w).
Proof. unfold held_locks_allocated. apply _. Defined.


(** The request [acquire(blocking)] sends for a lock. *)
Definition acquire_request (name : string) (blocking : blocking_arg)
  : store_call :=
  match blocking with
  | BTrue => LockAcquire name true None
  | BFalse => LockAcquire name false None
  | BDuration s => LockAcquire name true (Some s)
  end.

(** The requests one driver heartbeat sends for a list of locks, in the
    order sent: one to extend each lock whose flag is set. *)
Definition extend_requests (hp : gmap nat RedisLock) (ls : list nat)
  : list store_call :=
  flat_map
    (fun l =>
       match hp !! l with
       | Some o =>
           if _acquired o then [LockExtend (_name o) (_lock_timeout o)]
           else []
       | None => []
       end) ls.



(** A join callback is registered for a group; a member joins; a second
    join callback is registered for the same group; the driver polls.
    The results: the calls of that poll, and the calls of the poll when
    the second registration is left out. *)
Definition watch_twice (group_id : string) (callback callback' : nat)
  : result (list (nat * event)) * result (list (nat * event)) :=
  let w0 := started_world "m1" in
  let w1 := snd (get_of (create_group group_id) None w0) in
  let w2 := snd (watch_join_group group_id callback w1) in
  let w3 := snd (get_of (join_group (@Ok string) group_id "caps") None w2) in
  let w4 := snd (watch_join_group group_id callback' w3) in
  (fst (run_watchers None w4), fst (run_watchers None w3)).
(** * Properties *)

(** ** Keys *)

Lemma group_key_not_registry d group_id :
  _encode_group_id d group_id ≠ _groups d.
Proof.
  unfold _encode_group_id, _groups, _group_prefix, _NAMESPACE_SEP.
  induction (_namespace d) as [|c ns IH]; simpl.
  - discriminate.
  - intros H. injection H as H. contradiction.
Qed.

Lemma encode_valid_member_id m :
  m ≠ _GROUP_EXISTS -> _encode_member_id m = Ok m.
Proof. intros H. unfold _encode_member_id. by case_decide. Qed.

(** ** Waiting for submitted work *)

Lemma Qle_bool_0_max t : Qle_bool 0 (Qmax 0 t) = true.
Proof. apply Qle_bool_iff, Q.le_max_l. Qed.

Lemma get_of_bind {A B} (c : M A) (k : A -> M (future B)) timeout w :
  get_of (bind c k) timeout w = bind c (fun a => get_of (k a) timeout) w.
Proof. unfold get_of, bind. by destruct (c w) as [[a|e|] w']. Qed.

(** On a running driver, [submit(work).get(timeout)] is the outcome of
    the work with the failures translated, whatever the timeout. *)
Lemma get_of_submit {A} (work : M A) timeout w r w' :
  running (coord w) -> work w = (r, w') -> r ≠ Blocked ->
  get_of (_submit work) timeout w
  = (except_futures_timeout (_translate_failures r), w').
Proof.
  intros (Hs & He & _) Hw Hr.
  unfold get_of, bind, _submit. rewrite Hs, He, Hw. simpl.
  unfold RedisFutureResult.get, Future_result.
  destruct r as [a|e|]; [| |done]; simpl;
    destruct timeout as [[t|]|]; simpl; by rewrite ?Qle_bool_0_max.
Qed.

(** A domain error passes the translation unchanged. *)
Lemma translate_ToozError {A} e :
  is_ToozError e = true -> e ≠ OperationTimedOut ->
  except_futures_timeout (_translate_failures (@Raise A e)) = Raise e.
Proof. by destruct e. Qed.

Lemma get_of_submit_raise {A} (work : M A) timeout w e w' :
  running (coord w) -> work w = (Raise e, w') ->
  is_ToozError e = true -> e ≠ OperationTimedOut ->
  get_of (_submit work) timeout w = (Raise e, w').
Proof.
  intros Hr Hw He Hne.
  rewrite (get_of_submit work timeout w (Raise e) w') by done.
  by rewrite translate_ToozError.
Qed.

Lemma get_of_submit_ok {A} (work : M A) timeout w a w' :
  running (coord w) -> work w = (Ok a, w') ->
  get_of (_submit work) timeout w = (Ok a, w').
Proof.
  intros Hr Hw.
  by rewrite (get_of_submit work timeout w (Ok a) w').
Qed.

Ltac unfold_call :=
  unfold bind, ret, raise, lift, get_coord, modify_coord, query, query_r,
    command, the_client, transaction in *.

(** ** Group existence *)

Lemma sentinel_present_exists d db g :
  sentinel_present d db g = true ->
  Redis.exists_ (_encode_group_id d g) db = true.
Proof.
  unfold sentinel_present, Redis.exists_. intros H.
  destruct (db !! _encode_group_id d g) as [v|] eqn:E; [|done].
  apply bool_decide_eq_true. eauto.
Qed.

(** In a well-formed store, a group without the sentinel has no key. *)
Lemma sentinel_absent_no_key d db g :
  store_wf d db -> sentinel_present d db g = false ->
  db !! _encode_group_id d g = None.
Proof.
  unfold sentinel_present. intros Hwf H.
  destruct (db !! _encode_group_id d g) as [v|] eqn:E; [|done].
  apply Hwf in E. destruct v as [h|s]; simpl in E.
  - apply andb_true_iff in E as [_ E]. congruence.
  - apply bool_decide_eq_true in E. by apply group_key_not_registry in E.
Qed.

Lemma sentinel_absent_not_exists d db g :
  store_wf d db -> sentinel_present d db g = false ->
  Redis.exists_ (_encode_group_id d g) db = false.
Proof.
  intros Hwf H. unfold Redis.exists_.
  rewrite (sentinel_absent_no_key d db g Hwf H).
  apply bool_decide_eq_false. by intros [? ?].
Qed.

Section GroupNotCreated.

Context {capabilities : Type}.
Variable msgpack_dumps : capabilities -> result string.
Variable w : world.
Variable group_id : string.
Hypothesis Hrun : running (coord w).
Hypothesis Hmember : _member_id (coord w) ≠ _GROUP_EXISTS.
Hypothesis Hwf : store_wf (coord w) (store w).
Hypothesis Habsent : sentinel_present (coord w) (store w) group_id = false.

Local Lemma not_exists :
  Redis.exists_ (_encode_group_id (coord w) group_id) (store w) = false.
Proof using Hwf Habsent. by apply sentinel_absent_not_exists. Qed.

Lemma get_members_not_created timeout :
  get_of (get_members group_id) timeout w
  = (Raise (GroupNotCreated group_id), w).
Proof.
  destruct Hrun as (_ & _ & Hc).
  unfold get_members. rewrite get_of_bind. unfold bind at 1, get_coord.
  rewrite get_of_bind. unfold bind at 1, the_client. rewrite Hc.
  apply get_of_submit_raise; [done| |done|done].
  unfold _get_members. unfold_call. by rewrite not_exists.
Qed.

Lemma join_group_not_created caps timeout :
  get_of (join_group msgpack_dumps group_id caps) timeout w
  = (Raise (GroupNotCreated group_id), w).
Proof.
  destruct Hrun as (_ & _ & Hc).
  unfold join_group. rewrite get_of_bind. unfold bind at 1, get_coord.
  rewrite get_of_bind. unfold bind at 1, lift.
  rewrite (encode_valid_member_id _ Hmember).
  rewrite get_of_bind. unfold bind at 1, the_client. rewrite Hc.
  apply get_of_submit_raise; [done| |done|done].
  unfold _join_group. unfold_call. by rewrite not_exists.
Qed.

Lemma leave_group_not_created timeout :
  get_of (leave_group group_id) timeout w
  = (Raise (GroupNotCreated group_id), w).
Proof.
  destruct Hrun as (_ & _ & Hc).
  unfold leave_group. rewrite get_of_bind. unfold bind at 1, get_coord.
  rewrite get_of_bind. unfold bind at 1, lift.
  rewrite (encode_valid_member_id _ Hmember).
  rewrite get_of_bind. unfold bind at 1, the_client. rewrite Hc.
  apply get_of_submit_raise; [done| |done|done].
  unfold _leave_group. unfold_call. by rewrite not_exists.
Qed.

Lemma update_capabilities_not_created caps timeout :
  get_of (update_capabilities msgpack_dumps group_id caps) timeout w
  = (Raise (GroupNotCreated group_id), w).
Proof.
  destruct Hrun as (_ & _ & Hc).
  unfold update_capabilities. rewrite get_of_bind. unfold bind at 1, get_coord.
  rewrite get_of_bind. unfold bind at 1, lift.
  rewrite (encode_valid_member_id _ Hmember).
  rewrite get_of_bind. unfold bind at 1, the_client. rewrite Hc.
  apply get_of_submit_raise; [done| |done|done].
  unfold _update_capabilities. unfold_call. by rewrite not_exists.
Qed.

End GroupNotCreated.

(** C2: for every group whose existence sentinel is absent from the
    store, [get_members], [join_group], [leave_group] and
    [update_capabilities] each fail with [GroupNotCreated], and the world
    after the call (the store and the driver's joined-groups set with it)
    is the world before it. The driver is running, its member id is not
    the reserved one, and the store holds what drivers of its namespace
    write. *)
Theorem missing_group_operations_fail {capabilities : Type}
    (msgpack_dumps : capabilities -> result string)
    (w : world) (group_id : string) (caps : capabilities)
    (timeout : option (option Q)) :
  running (coord w) ->
  _member_id (coord w) ≠ _GROUP_EXISTS ->
  store_wf (coord w) (store w) ->
  sentinel_present (coord w) (store w) group_id = false ->
  get_of (get_members group_id) timeout w
    = (Raise (GroupNotCreated group_id), w)
  ∧ get_of (join_group msgpack_dumps group_id caps) timeout w
    = (Raise (GroupNotCreated group_id), w)
  ∧ get_of (leave_group group_id) timeout w
    = (Raise (GroupNotCreated group_id), w)
  ∧ get_of (update_capabilities msgpack_dumps group_id caps) timeout w
    = (Raise (GroupNotCreated group_id), w).
Proof.
  intros Hrun Hm Hwf Habs. repeat split.
  - by apply get_members_not_created.
  - by apply join_group_not_created.
  - by apply leave_group_not_created.
  - by apply update_capabilities_not_created.
Qed.

Lemma missing_group_operations_fail_witness :
  let w := started_world "m1" in
  get_of (get_members "g") None w = (Raise (GroupNotCreated "g"), w)
  ∧ get_of (join_group (@Ok string) "g" "caps") None w
    = (Raise (GroupNotCreated "g"), w)
  ∧ get_of (leave_group "g") None w = (Raise (GroupNotCreated "g"), w)
  ∧ get_of (update_capabilities (@Ok string) "g" "caps") None w
    = (Raise (GroupNotCreated "g"), w).
Proof.
  apply (missing_group_operations_fail (@Ok string) (started_world "m1")
           "g" "caps" None).
  - repeat split; reflexivity.
  - discriminate.
  - apply (bool_decide_unpack _). vm_compute. exact I.
  - reflexivity.
Defined.

(** ** [create_group] and [get_groups] *)

Lemma registry_not_hash d db h :
  store_wf d db -> db !! _groups d ≠ Some (RHash h).
Proof.
  intros Hwf E. apply Hwf in E. simpl in E.
  apply andb_true_iff in E as [E _].
  apply bool_decide_eq_true in E. done.
Qed.

Lemma create_group_existing w g timeout :
  running (coord w) ->
  Redis.exists_ (_encode_group_id (coord w) g) (store w) = true ->
  get_of (create_group g) timeout w = (Raise (GroupAlreadyExist g), w).
Proof.
  intros Hrun Hex. pose proof Hrun as (_ & _ & Hc).
  unfold create_group. rewrite get_of_bind. unfold bind at 1, get_coord.
  rewrite get_of_bind. unfold bind at 1, the_client. rewrite Hc.
  apply get_of_submit_raise; [done| |done|done].
  unfold _create_group. unfold_call. by rewrite Hex.
Qed.

Lemma create_group_fresh w g timeout :
  running (coord w) ->
  store_wf (coord w) (store w) ->
  sentinel_present (coord w) (store w) g = false ->
  get_of (create_group g) timeout w
  = (Ok tt, set_store (store_after_create (coord w) (store w) g) w).
Proof.
  intros Hrun Hwf Habs. pose proof Hrun as (_ & _ & Hc).
  pose proof (sentinel_absent_no_key _ _ _ Hwf Habs) as Hkey.
  pose proof (sentinel_absent_not_exists _ _ _ Hwf Habs) as Hex.
  unfold create_group. rewrite get_of_bind. unfold bind at 1, get_coord.
  rewrite get_of_bind. unfold bind at 1, the_client. rewrite Hc.
  apply get_of_submit_ok; [done|].
  unfold _create_group. unfold_call. rewrite Hex.
  unfold store_after_create, registry, Redis.sadd.
  destruct (store w !! _groups (coord w)) as [[h|s]|] eqn:E.
  - by apply registry_not_hash in E.
  - simpl. unfold Redis.hset.
    rewrite lookup_insert_ne by (apply not_eq_sym, group_key_not_registry).
    by rewrite Hkey.
  - simpl. unfold Redis.hset.
    rewrite lookup_insert_ne by (apply not_eq_sym, group_key_not_registry).
    rewrite Hkey. simpl. by rewrite (right_id_L ∅ (∪)).
Qed.

Lemma store_after_create_wf d db g :
  store_wf d db -> store_wf d (store_after_create d db g).
Proof.
  intros Hwf. unfold store_after_create, store_wf.
  apply map_Forall_insert_2.
  - simpl. apply andb_true_iff. split.
    + apply bool_decide_eq_true, group_key_not_registry.
    + apply bool_decide_eq_true. rewrite lookup_singleton_eq. eauto.
  - apply map_Forall_insert_2; [|done].
    simpl. by apply bool_decide_eq_true.
Qed.

Lemma store_after_create_registry d db g :
  registry d (store_after_create d db g) = {[g]} ∪ registry d db.
Proof.
  unfold store_after_create. unfold registry at 1.
  rewrite lookup_insert_ne by apply group_key_not_registry.
  by rewrite lookup_insert_eq.
Qed.

Lemma store_after_create_sentinel d db g :
  sentinel_present d (store_after_create d db g) g = true.
Proof.
  unfold store_after_create, sentinel_present. rewrite lookup_insert_eq.
  apply bool_decide_eq_true. rewrite lookup_singleton_eq. eauto.
Qed.

Lemma store_after_create_hash d db g :
  group_hash d (store_after_create d db g) g = {[_GROUP_EXISTS := "1"]}.
Proof.
  unfold store_after_create, group_hash. by rewrite lookup_insert_eq.
Qed.

Lemma get_groups_registry w timeout :
  running (coord w) ->
  store_wf (coord w) (store w) ->
  get_of get_groups timeout w
  = (Ok (elements (registry (coord w) (store w))), w).
Proof.
  intros Hrun Hwf. unfold get_groups.
  apply get_of_submit_ok; [done|].
  unfold _get_groups. unfold_call. unfold Redis.smembers, registry.
  destruct (store w !! _groups (coord w)) as [[h|s]|] eqn:E; [|done|].
  - by apply registry_not_hash in E.
  - by rewrite elements_empty.
Qed.

Lemma create_group_attempts_inv gs : forall w,
  running (coord w) ->
  store_wf (coord w) (store w) ->
  let '(rs, w') := create_group_attempts gs w in
  coord w' = coord w
  ∧ store_wf (coord w') (store w')
  ∧ registry (coord w) (store w) ⊆ registry (coord w') (store w')
  ∧ (forall g, (g, Ok tt) ∈ rs -> g ∈ registry (coord w') (store w')).
Proof.
  induction gs as [|g gs IH]; intros w Hrun Hwf; simpl.
  - repeat split; [done|done|]. intros g H. by apply elem_of_nil in H.
  - destruct (sentinel_present (coord w) (store w) g) eqn:Hs.
    + rewrite create_group_existing
        by (done || by apply sentinel_present_exists).
      specialize (IH w Hrun Hwf).
      destruct (create_group_attempts gs w) as [rs w'].
      destruct IH as (Hc & Hwf' & Hsub & Hin). repeat split; try done.
      intros g' H. apply elem_of_cons in H as [H|H]; [congruence|by apply Hin].
    + rewrite create_group_fresh by done.
      set (w1 := set_store (store_after_create (coord w) (store w) g) w).
      assert (Hwf1 : store_wf (coord w1) (store w1))
        by apply store_after_create_wf, Hwf.
      specialize (IH w1 Hrun Hwf1).
      destruct (create_group_attempts gs w1) as [rs w'].
      destruct IH as (Hc & Hwf' & Hsub & Hin).
      subst w1. simpl in Hsub.
      rewrite store_after_create_registry in Hsub.
      repeat split; [done|done|set_solver|].
      intros g' H. apply elem_of_cons in H as [H|H]; [|by apply Hin].
      injection H as ->. set_solver.
Qed.

Lemma count_occ_elements (s : gset string) g :
  g ∈ s -> count_occ String.string_dec (elements s) g = 1.
Proof.
  intros H. apply NoDup_count_occ'.
  - apply NoDup_ListNoDup, NoDup_elements.
  - apply list_elem_of_In, elem_of_elements, H.
Qed.

(** C3: [create_group(g)] fails with [GroupAlreadyExist] and leaves the
    world (the registry with it) as it was when the sentinel of [g] is
    present; otherwise it adds [g] to the registry and sets the
    sentinel; and after any sequence of creation attempts in which one
    for [g] succeeded, [get_groups()] holds [g] exactly once. *)
Theorem create_group_registers_once (w : world) (g : string)
    (timeout : option (option Q)) (attempts : list string) :
  running (coord w) ->
  store_wf (coord w) (store w) ->
  (sentinel_present (coord w) (store w) g = true ->
   get_of (create_group g) timeout w = (Raise (GroupAlreadyExist g), w))
  ∧ (sentinel_present (coord w) (store w) g = false ->
     exists w',
       get_of (create_group g) timeout w = (Ok tt, w')
       ∧ coord w' = coord w
       ∧ registry (coord w') (store w') = {[g]} ∪ registry (coord w) (store w)
       ∧ sentinel_present (coord w') (store w') g = true)
  ∧ (forall rs w',
       create_group_attempts attempts w = (rs, w') ->
       (g, Ok tt) ∈ rs ->
       exists groups,
         get_of get_groups timeout w' = (Ok groups, w')
         ∧ count_occ String.string_dec groups g = 1).
Proof.
  intros Hrun Hwf. split; [|split].
  - intros Hs. apply create_group_existing; [done|].
    by apply sentinel_present_exists.
  - intros Hs. eexists. split; [by apply create_group_fresh|].
    split; [done|]. split.
    + apply store_after_create_registry.
    + apply store_after_create_sentinel.
  - intros rs w' Hat Hin.
    pose proof (create_group_attempts_inv attempts w Hrun Hwf) as Hinv.
    rewrite Hat in Hinv. destruct Hinv as (Hc & Hwf' & _ & Hreg).
    assert (Hrun' : running (coord w')) by by rewrite Hc.
    eexists. split; [by apply get_groups_registry|].
    apply count_occ_elements, Hreg, Hin.
Qed.

Lemma create_group_registers_once_witness :
  let w := started_world "m1" in
  (exists w',
     get_of (create_group "g") None w = (Ok tt, w')
     ∧ coord w' = coord w
     ∧ registry (coord w') (store w') = {[ "g" ]} ∪ registry (coord w) (store w)
     ∧ sentinel_present (coord w') (store w') "g" = true)
  ∧ (exists groups,
       get_of get_groups None (snd (create_group_attempts ["g"; "g"] w))
       = (Ok groups, snd (create_group_attempts ["g"; "g"] w))
       ∧ count_occ String.string_dec groups "g" = 1).
Proof.
  intros w.
  assert (Hrun : running (coord w)) by (repeat split; reflexivity).
  assert (Hwf : store_wf (coord w) (store w))
    by (apply (bool_decide_unpack _); vm_compute; exact I).
  destruct (create_group_registers_once w "g" None ["g"; "g"] Hrun Hwf)
    as (_ & Hfresh & Hseq).
  split.
  - apply Hfresh. reflexivity.
  - apply (Hseq (fst (create_group_attempts ["g"; "g"] w))).
    + by destruct (create_group_attempts ["g"; "g"] w).
    + vm_compute. apply list_elem_of_here.
Defined.

(** ** The group operations keep the store well formed *)





Lemma store_after_create_inv d db g :
  store_inv d db -> store_inv d (store_after_create d db g).
Proof.
  intros [Hwf Hcr]. split; [by apply store_after_create_wf|].
  unfold registry_created. rewrite store_after_create_registry.
  intros g' Hg'.
  destruct (decide (_encode_group_id d g = _encode_group_id d g')) as [E|E].
  - unfold sentinel_present, store_after_create.
    rewrite <- E, lookup_insert_eq.
    apply bool_decide_eq_true. rewrite lookup_singleton_eq. eauto.
  - assert (Hin : g' ∈ registry d db).
    { apply elem_of_union in Hg' as [Hg'|Hg']; [|done].
      apply elem_of_singleton in Hg'. by subst. }
    specialize (Hcr g' Hin). simpl in Hcr.
    unfold sentinel_present, store_after_create in *.
    rewrite lookup_insert_ne by done.
    by rewrite lookup_insert_ne by apply not_eq_sym, group_key_not_registry.
Qed.



Section StoreInvariant.

Context {capabilities : Type}.
Variable msgpack_dumps : capabilities -> result string.
Variable w : world.
Variable timeout : option (option Q).
Hypothesis Hrun : running (coord w).
Hypothesis Hmember : _member_id (coord w) ≠ _GROUP_EXISTS.
Hypothesis Hinv : store_inv (coord w) (store w).

Lemma create_group_keeps_inv g :
  let w' := (get_of (create_group g) timeout w).2 in
  store_inv (coord w') (store w').
Proof using Hrun Hinv.
  destruct (sentinel_present (coord w) (store w) g) eqn:Hs.
  - rewrite create_group_existing
      by (done || by apply sentinel_present_exists). done.
  - rewrite create_group_fresh by (done || apply Hinv).
    by apply store_after_create_inv.
Qed.







End StoreInvariant.

(** ** [get_members] *)

Lemma get_members_created w g timeout :
  running (coord w) ->
  sentinel_present (coord w) (store w) g = true ->
  get_of (get_members g) timeout w
  = (Ok (members_of (group_hash (coord w) (store w) g)), w).
Proof.
  intros Hrun Hs. pose proof Hrun as (_ & _ & Hc).
  pose proof (sentinel_present_exists _ _ _ Hs) as Hex.
  unfold get_members. rewrite get_of_bind. unfold bind at 1, get_coord.
  rewrite get_of_bind. unfold bind at 1, the_client. rewrite Hc.
  apply get_of_submit_ok; [done|].
  unfold _get_members. unfold_call. rewrite Hex. simpl.
  unfold Redis.hkeys, group_hash, sentinel_present in *.
  destruct (store w !! _encode_group_id (coord w) g) as [[h|s]|]; try done.
  unfold _decode_member_id, members_of. by rewrite list_fmap_id.
Qed.

Lemma elem_of_members_of h m :
  m ∈ members_of h <-> m ≠ _GROUP_EXISTS ∧ is_Some (h !! m).
Proof.
  unfold members_of. rewrite list_elem_of_filter, list_elem_of_fmap.
  split.
  - intros (Hne & [k v] & -> & Hin). split; [done|].
    apply elem_of_map_to_list in Hin. eauto.
  - intros (Hne & v & Hv). split; [done|].
    exists (m, v). split; [done|]. by apply elem_of_map_to_list.
Qed.

Lemma NoDup_members_of h : NoDup (members_of h).
Proof. apply NoDup_filter, NoDup_fst_map_to_list. Qed.

(** C4: for a created group, [get_members] returns the member ids of the
    group's hash without the sentinel; a created group with no joined
    member yields the empty list, where a group never created yields the
    [GroupNotCreated] error. *)
Theorem get_members_excludes_sentinel (w : world) (g : string)
    (timeout : option (option Q)) :
  running (coord w) ->
  (sentinel_present (coord w) (store w) g = true ->
   exists members,
     get_of (get_members g) timeout w = (Ok members, w)
     ∧ NoDup members
     ∧ (forall m, m ∈ members <->
                  m ≠ _GROUP_EXISTS
                  ∧ is_Some (group_hash (coord w) (store w) g !! m))
     ∧ ((forall m, m ≠ _GROUP_EXISTS ->
                   group_hash (coord w) (store w) g !! m = None) ->
        members = []))
  ∧ (store_wf (coord w) (store w) ->
     sentinel_present (coord w) (store w) g = false ->
     get_of (get_members g) timeout w = (Raise (GroupNotCreated g), w)
     ∧ exists w1,
         get_of (create_group g) timeout w = (Ok tt, w1)
         ∧ get_of (get_members g) timeout w1 = (Ok [], w1)).
Proof.
  intros Hrun. split.
  - intros Hs. eexists. split; [by apply get_members_created|].
    split; [apply NoDup_members_of|]. split; [apply elem_of_members_of|].
    intros Hnone.
    destruct (members_of (group_hash (coord w) (store w) g)) as [|m l] eqn:E;
      [done|].
    assert (Hm : m ∈ m :: l) by apply list_elem_of_here.
    rewrite <- E in Hm. apply elem_of_members_of in Hm as [Hne [v Hv]].
    rewrite Hnone in Hv; done.
  - intros Hwf Hs. split; [by apply get_members_not_created|].
    eexists. split; [by apply create_group_fresh|].
    rewrite get_members_created; [|done|apply store_after_create_sentinel].
    simpl. by rewrite store_after_create_hash.
Qed.

Lemma get_members_excludes_sentinel_witness :
  let w := started_world "m1" in
  let w2 := snd (get_of (join_group (@Ok string) "g" "caps") None
                   (snd (get_of (create_group "g") None w))) in
  (exists members,
     get_of (get_members "g") None w2 = (Ok members, w2)
     ∧ NoDup members
     ∧ (forall m, m ∈ members <->
                  m ≠ _GROUP_EXISTS
                  ∧ is_Some (group_hash (coord w2) (store w2) "g" !! m))
     ∧ ((forall m, m ≠ _GROUP_EXISTS ->
                   group_hash (coord w2) (store w2) "g" !! m = None) ->
        members = []))
  ∧ get_of (get_members "g") None w = (Raise (GroupNotCreated "g"), w)
  ∧ exists w1,
      get_of (create_group "g") None w = (Ok tt, w1)
      ∧ get_of (get_members "g") None w1 = (Ok [], w1).
Proof.
  intros w w2. split.
  - apply (get_members_excludes_sentinel w2 "g" None).
    + repeat split; reflexivity.
    + reflexivity.
  - apply (get_members_excludes_sentinel w "g" None).
    + repeat split; reflexivity.
    + apply (bool_decide_unpack _). vm_compute. exact I.
    + reflexivity.
Defined.

(** ** [join_group] by a member that has already joined *)

(** C1, as the code behaves: the second [join_group] of a member raises
    [MemberAlreadyExist] and leaves the joined-groups set as it was, but
    its HSET has already replaced the stored capabilities: what is read
    back is [caps2], not [caps]. *)
Theorem join_group_again_overwrites_capabilities :
  join_twice "m1" "g" "caps" "caps2"
  = (Raise (MemberAlreadyExist "g" "m1"), Ok "caps", Ok "caps2",
     {[ "g" ]}, {[ "g" ]}).
Proof. vm_compute. reflexivity. Qed.

Lemma join_group_existing_member {capabilities : Type}
    (msgpack_dumps : capabilities -> result string)
    (w : world) (g : string) (caps2 : capabilities) (h : gmap string string)
    (blob : string) (timeout : option (option Q)) :
  running (coord w) ->
  _member_id (coord w) ≠ _GROUP_EXISTS ->
  store w !! _encode_group_id (coord w) g = Some (RHash h) ->
  is_Some (h !! _member_id (coord w)) ->
  msgpack_dumps caps2 = Ok blob ->
  get_of (join_group msgpack_dumps g caps2) timeout w
  = (Raise (MemberAlreadyExist g (_member_id (coord w))),
     set_store (<[_encode_group_id (coord w) g :=
                    RHash (<[_member_id (coord w) := blob]> h)]> (store w)) w).
Proof.
  intros Hrun Hm Hkey [old Hold] Hd. pose proof Hrun as (_ & _ & Hc).
  unfold join_group. rewrite get_of_bind. unfold bind at 1, get_coord.
  rewrite get_of_bind. unfold bind at 1, lift.
  rewrite (encode_valid_member_id _ Hm).
  rewrite get_of_bind. unfold bind at 1, the_client. rewrite Hc.
  apply get_of_submit_raise; [done| |done|done].
  unfold _join_group, _dumps. unfold_call.
  unfold Redis.exists_, Redis.hset. rewrite Hkey, Hd. simpl.
  rewrite Hkey, Hold. done.
Qed.

(** ** Locks *)

Ltac unfold_lock :=
  unfold Lock.acquire, Lock.release, Lock.heartbeat, Lock.deref,
    Lock.set_acquired, with_translate_failures, send, held_flag in *;
  unfold_call.

(** C5: [release()] on a lock that is not locally held returns [False]
    and sends nothing to the store; on a held lock it asks the store, and
    removes the lock from [_acquired_locks] and clears the flag only when
    the store released it; a [LockError] of the store makes it return
    [False] (no exception) with the flag and the set as they were. *)
Theorem release_updates_bookkeeping_on_success (w : world) (l : nat)
    (o : RedisLock) (reply : result unit) :
  heap w !! l = Some o ->
  (_acquired o = false -> Lock.release l reply w = (Ok false, w))
  ∧ (_acquired o = true ->
     let '(r, w') := Lock.release l reply w in
     calls w' = LockRelease (_name o) :: calls w
     ∧ store w' = store w
     ∧ match reply with
       | Ok _ =>
           r = Ok true
           ∧ _acquired_locks (coord w') = _acquired_locks (coord w) ∖ {[l]}
           ∧ held_flag w' l = Some false
       | Raise e =>
           r = (if decide (e = RedisLockError) then Ok false
                else _translate_failures (Raise e))
           ∧ coord w' = coord w ∧ heap w' = heap w
       | Blocked => r = Blocked ∧ coord w' = coord w ∧ heap w' = heap w
       end).
Proof.
  intros Hl. split; intros Ha.
  - unfold_lock. by rewrite Hl, Ha.
  - unfold_lock. rewrite Hl, Ha. simpl.
    destruct reply as [[]|e|]; [|destruct e|]; simpl; repeat split; try done.
    rewrite lookup_alter_eq, Hl. done.
Qed.

Lemma release_updates_bookkeeping_on_success_witness :
  let w := snd (Lock.acquire 0 BTrue (Ok true)
                  (snd (get_lock "res" (started_world "m1")))) in
  let '(r, w') := Lock.release 0 (Raise RedisLockError) w in
  calls w' = LockRelease "_tooz_res_lock" :: calls w
  ∧ store w' = store w
  ∧ r = Ok false ∧ coord w' = coord w ∧ heap w' = heap w.
Proof.
  intros w.
  apply (proj2 (release_updates_bookkeeping_on_success w 0
                  (mkRedisLock "_tooz_res_lock" 30 true)
                  (Raise RedisLockError) eq_refl) eq_refl).
Defined.

(** [release] and the lock's [heartbeat] keep the flag and the set in
    agreement, and so does an [acquire] on a lock whose flag is clear. *)
Ltac solve_elem :=
  rewrite ?elem_of_union, ?elem_of_difference, ?elem_of_singleton;
  intuition congruence.

Lemma release_keeps_consistent w l reply l' :
  held_consistent w l' ->
  held_consistent (snd (Lock.release l reply w)) l'.
Proof.
  unfold held_consistent. intros Hcons. unfold_lock.
  destruct (heap w !! l) as [o|] eqn:Hl; [|done]. simpl.
  destruct (_acquired o) eqn:Ha; [|done]. simpl.
  destruct reply as [[]|e|]; [|by destruct e|done]. simpl.
  destruct (decide (l' = l)) as [->|Hne].
  - rewrite lookup_alter_eq, Hl. simpl. solve_elem.
  - rewrite lookup_alter_ne by done. rewrite <- Hcons. solve_elem.
Qed.

Lemma lock_heartbeat_keeps_world w l reply :
  let w' := snd (Lock.heartbeat l reply w) in
  coord w' = coord w ∧ heap w' = heap w ∧ store w' = store w.
Proof.
  unfold_lock. destruct (heap w !! l) as [o|]; [|done]. simpl.
  destruct (_acquired o); [|done]. simpl.
  by destruct reply as [[]|e|].
Qed.

Lemma acquire_unheld_keeps_consistent w l blocking reply l' :
  held_flag w l ≠ Some true ->
  held_consistent w l' ->
  held_consistent (snd (Lock.acquire l blocking reply w)) l'.
Proof.
  unfold held_consistent. intros Hf Hcons. unfold_lock.
  destruct (heap w !! l) as [o|] eqn:Hl; [|done]. simpl in *.
  assert (Hgoal : forall b : bool,
    l' ∈ _acquired_locks
           (if b then set_acquired_locks (fun s => {[l]} ∪ s) (coord w)
            else coord w)
    <-> _acquired <$>
          alter (fun o : RedisLock =>
                   mkRedisLock (_name o) (_lock_timeout o) b) l (heap w) !! l'
        = Some true).
  { intros b.
    destruct (decide (l' = l)) as [->|Hne].
    - rewrite lookup_alter_eq, Hl. rewrite Hl in Hcons. simpl in *.
      destruct b; simpl; solve_elem.
    - rewrite lookup_alter_ne by done. rewrite <- Hcons.
      destruct b; simpl; solve_elem. }
  destruct blocking; simpl;
    (destruct reply as [[|]|e|]; simpl;
     [exact (Hgoal true)
     |exact (Hgoal false)
     |by destruct e
     |done]).
Qed.

(** C9, as the code behaves: after [acquire()] succeeded, a second
    [acquire(blocking=False)] on the same lock object, refused by the
    store, clears the flag and leaves the lock in [_acquired_locks];
    [release()] then answers [False] and a driver heartbeat sends only
    its PING, no request to release or to extend the lock. *)
Theorem acquire_refused_leaves_lock_in_held_set :
  acquire_twice "res" = (Some false, true, Ok false, [Ping]).
Proof. vm_compute. reflexivity. Qed.

(** ** Asynchronous results *)

Lemma Future_result_bounded {A} (fut : future A) (t : Q) :
  exists elapsed r,
    Future_result fut (Some t) = Returned elapsed r
    ∧ (elapsed <= Qmax 0 t)%Q
    ∧ (completes_within fut t = false -> r = Raise FuturesTimeoutError).
Proof.
  unfold Future_result, completes_within.
  destruct (completes_in fut) as [d|].
  - destruct (Qle_bool d (Qmax 0 t)) eqn:E.
    + do 2 eexists. split; [done|]. split; [|done].
      apply Q.max_lub; [apply Q.le_max_l|by apply Qle_bool_iff].
    + do 2 eexists. split; [done|]. split; [apply Qle_refl|done].
  - do 2 eexists. split; [done|]. split; [apply Qle_refl|done].
Qed.

Lemma get_bounded {A} (fut : future A) (t : Q) :
  exists elapsed r,
    RedisFutureResult.get fut (Some (Some t)) = Returned elapsed r
    ∧ (elapsed <= Qmax 0 t)%Q
    ∧ (completes_within fut t = false -> r = Raise OperationTimedOut).
Proof.
  destruct (Future_result_bounded fut t) as (elapsed & r & Hr & Hle & Hto).
  unfold RedisFutureResult.get. rewrite Hr.
  do 2 eexists. split; [done|]. split; [done|].
  intros Hc. by rewrite (Hto Hc).
Qed.

(** C6: [get(timeout)] suspends the caller for at most [timeout] and
    raises [OperationTimedOut] when the work is not finished within it;
    a store-native error of the work does not fail the submission: the
    future keeps it, and [get] raises it translated
    ([ToozConnectionError] for a connection or timeout error of the
    store, [ToozError] for any other). *)
Theorem get_waits_at_most_timeout_and_translates {A : Type}
    (fut : future A) (t : Q) (w w' : world) (work : M A) (e : exn)
    (timeout : option (option Q)) :
  (0 <= t)%Q ->
  running (coord w) ->
  work w = (Raise e, w') ->
  is_RedisError e = true ->
  (exists elapsed r,
     RedisFutureResult.get fut (Some (Some t)) = Returned elapsed r
     ∧ (elapsed <= t)%Q
     ∧ (completes_within fut t = false -> r = Raise OperationTimedOut))
  ∧ (exists submitted elapsed,
       _submit work w = (Ok submitted, w')
       ∧ outcome submitted = Raise e
       ∧ RedisFutureResult.get submitted timeout
         = Returned elapsed (Raise (translated e))).
Proof.
  intros Ht (Hs & He & _) Hw Hre. split.
  - destruct (get_bounded fut t) as (elapsed & r & Hr & Hle & Hto).
    exists elapsed, r. split; [done|]. split; [|done].
    eapply Qle_trans; [exact Hle|]. by apply Q.max_lub; [|apply Qle_refl].
  - unfold _submit. rewrite Hs, He, Hw. simpl.
    do 2 eexists. split; [done|]. split; [done|].
    unfold RedisFutureResult.get, Future_result. simpl.
    destruct timeout as [[t'|]|]; simpl; rewrite ?Qle_bool_0_max;
      by destruct e.
Qed.

Lemma get_waits_at_most_timeout_and_translates_witness :
  let fut := mkFuture None (Ok tt) in
  let w := started_world "m1" in
  (exists elapsed r,
     RedisFutureResult.get fut (Some (Some (1 # 1000)%Q)) = Returned elapsed r
     ∧ (elapsed <= 1 # 1000)%Q
     ∧ (completes_within fut (1 # 1000)%Q = false ->
        r = Raise OperationTimedOut))
  ∧ (exists submitted elapsed,
       _submit (raise (A := unit) RedisConnectionError) w = (Ok submitted, w)
       ∧ outcome submitted = Raise RedisConnectionError
       ∧ RedisFutureResult.get submitted None
         = Returned elapsed (Raise ToozConnectionError)).
Proof.
  apply (get_waits_at_most_timeout_and_translates
           (mkFuture None (Ok tt)) (1 # 1000)%Q
           (started_world "m1") (started_world "m1")
           (raise RedisConnectionError) RedisConnectionError None).
  - discriminate.
  - repeat split; reflexivity.
  - reflexivity.
  - reflexivity.
Defined.

(** C10: [get()] without a timeout waits at most the default 10 seconds,
    and on work that is not finished by then (work that never completes
    included) it raises [OperationTimedOut] after 10 seconds; it never
    suspends the caller for ever. *)
Theorem get_default_timeout_is_ten_seconds {A : Type} (fut : future A) :
  (exists elapsed r,
     RedisFutureResult.get fut None = Returned elapsed r
     ∧ (elapsed <= 10)%Q)
  ∧ (completes_within fut 10 = false ->
     RedisFutureResult.get fut None = Returned 10 (Raise OperationTimedOut)).
Proof.
  split.
  - destruct (get_bounded fut 10) as (elapsed & r & Hr & Hle & _).
    exists elapsed, r. split; [exact Hr|exact Hle].
  - unfold completes_within, RedisFutureResult.get, Future_result,
      RedisFutureResult.default_timeout.
    destruct (completes_in fut) as [d|]; [|done].
    intros Hc. by rewrite Hc.
Qed.

Lemma get_default_timeout_is_ten_seconds_witness :
  RedisFutureResult.get (mkFuture None (Ok tt)) None
  = Returned 10 (Raise OperationTimedOut).
Proof.
  apply (proj2 (get_default_timeout_is_ten_seconds (mkFuture None (Ok tt)))).
  reflexivity.
Defined.

(** ** Watchers *)

Lemma calls_of_app cb ev l1 l2 :
  calls_of cb ev (l1 ++ l2) = calls_of cb ev l1 + calls_of cb ev l2.
Proof. unfold calls_of. by rewrite filter_app, length_app. Qed.

Lemma calls_of_Hooks_run cb ev hooks ev' :
  calls_of cb ev (Hooks_run hooks ev')
  = if decide (ev = ev') then length (filter (fun c => c = cb) hooks) else 0.
Proof.
  unfold calls_of, Hooks_run.
  destruct (decide (ev = ev')) as [->|Hne].
  - induction hooks as [|c hooks IH]; [done|].
    rewrite fmap_cons, !filter_cons.
    destruct (decide (c = cb)) as [->|Hc].
    + rewrite decide_True by done. simpl. by rewrite IH.
    + rewrite decide_False by congruence. done.
  - induction hooks as [|c hooks IH]; [done|].
    rewrite fmap_cons, filter_cons.
    rewrite decide_False by congruence. done.
Qed.

(** Over a duplicate-free list of members, the calls with the event of
    [m] are those of the one run made for [m]. *)
Lemma calls_of_flat_map cb (mk : string -> event) hooks m (ms : list string) :
  Inj (=) (=) mk ->
  NoDup ms ->
  calls_of cb (mk m) (flat_map (fun m' => Hooks_run hooks (mk m')) ms)
  = if decide (m ∈ ms) then length (filter (fun c => c = cb) hooks) else 0.
Proof.
  intros Hinj Hnd. induction Hnd as [|m' ms Hnotin Hnd IH]; cbn [flat_map].
  - case_decide as Hin; [by apply elem_of_nil in Hin|done].
  - rewrite calls_of_app, IH, calls_of_Hooks_run.
    destruct (decide (m = m')) as [->|Hne].
    + rewrite decide_True by done.
      rewrite (decide_False (P := m' ∈ ms)) by done.
      rewrite decide_True by apply list_elem_of_here. lia.
    + rewrite decide_False by (intros E; by apply Hinj in E).
      destruct (decide (m ∈ ms)) as [Hin|Hnin].
      * rewrite decide_True by by apply list_elem_of_further. done.
      * rewrite decide_False; [done|].
        intros [?|?]%elem_of_cons; done.
Qed.

Lemma calls_of_flat_map_other cb ev (mk : string -> event) hooks
    (ms : list string) :
  (forall m, mk m ≠ ev) ->
  calls_of cb ev (flat_map (fun m' => Hooks_run hooks (mk m')) ms) = 0.
Proof.
  intros Hne. induction ms as [|m' ms IH]; cbn [flat_map]; [done|].
  rewrite calls_of_app, IH, calls_of_Hooks_run.
  rewrite decide_False; [done|]. intros E. by apply (Hne m').
Qed.

#[global] Instance MemberJoinedGroup_inj g : Inj (=) (=) (MemberJoinedGroup g).
Proof. by intros m1 m2 [= ->]. Qed.
#[global] Instance MemberLeftGroup_inj g : Inj (=) (=) (MemberLeftGroup g).
Proof. by intros m1 m2 [= ->]. Qed.

(** In the calls of one group, a join callback is called once with each
    member of [current ∖ old] and a leave callback once with each member
    of [old ∖ current], per registration. *)
Lemma group_events_joined d g old current cb m :
  calls_of cb (MemberJoinedGroup g m) (group_events d g old current)
  = if decide (m ∈ current ∖ old)
    then length (filter (fun c => c = cb) (hooks_of (_hooks_join_group d) g))
    else 0.
Proof.
  unfold group_events. rewrite calls_of_app.
  rewrite (calls_of_flat_map cb (MemberJoinedGroup g))
    by (apply _ || apply NoDup_elements).
  rewrite (calls_of_flat_map_other cb _ (MemberLeftGroup g)) by done.
  rewrite Nat.add_0_r.
  destruct (decide (m ∈ current ∖ old)) as [Hin|Hnin].
  - rewrite decide_True; [done|]. by apply elem_of_elements.
  - rewrite decide_False; [done|]. by rewrite elem_of_elements.
Qed.

Lemma group_events_left d g old current cb m :
  calls_of cb (MemberLeftGroup g m) (group_events d g old current)
  = if decide (m ∈ old ∖ current)
    then length (filter (fun c => c = cb) (hooks_of (_hooks_leave_group d) g))
    else 0.
Proof.
  unfold group_events. rewrite calls_of_app.
  rewrite (calls_of_flat_map cb (MemberLeftGroup g))
    by (apply _ || apply NoDup_elements).
  rewrite (calls_of_flat_map_other cb _ (MemberJoinedGroup g)) by done.
  simpl.
  destruct (decide (m ∈ old ∖ current)) as [Hin|Hnin].
  - rewrite decide_True; [done|]. by apply elem_of_elements.
  - rewrite decide_False; [done|]. by rewrite elem_of_elements.
Qed.

Lemma run_watchers_group_spec w g timeout :
  running (coord w) ->
  sentinel_present (coord w) (store w) g = true ->
  run_watchers_group timeout g w
  = (Ok (poll_events (coord w) (store w) g),
     set_coord
       (set_group_members
          (fun gm => <[g := current_members (coord w) (store w) g]> gm)
          (coord w)) w).
Proof.
  intros Hrun Hs. unfold run_watchers_group. unfold bind at 1.
  by rewrite get_members_created.
Qed.

Lemma flat_map_ext_elem {A B} (f g : A -> list B) (l : list A) :
  (forall a, a ∈ l -> f a = g a) -> flat_map f l = flat_map g l.
Proof.
  induction l as [|a l IH]; intros H; simpl; [done|].
  rewrite (H a) by apply list_elem_of_here.
  rewrite IH; [done|]. intros a' Ha'. by apply H, list_elem_of_further.
Qed.

(** The events of a group do not depend on the snapshots of the other
    groups. *)
Lemma poll_events_other_snapshot d db g g' s :
  g' ≠ g ->
  poll_events (set_group_members (fun gm => <[g := s]> gm) d) db g'
  = poll_events d db g'.
Proof.
  intros Hne. unfold poll_events, snapshot. simpl.
  by rewrite lookup_insert_ne.
Qed.

(** The loop of [run_watchers] over distinct created groups: the calls
    are those of each group against the snapshots of the start, and only
    the snapshots of the groups of the loop change, to the current
    members. *)
Lemma run_watchers_loop_spec timeout gs : forall w,
  running (coord w) ->
  NoDup gs ->
  (forall g, g ∈ gs -> sentinel_present (coord w) (store w) g = true) ->
  exists gm',
    run_watchers_loop timeout gs w
    = (Ok (flat_map (poll_events (coord w) (store w)) gs),
       set_coord (set_group_members (fun _ => gm') (coord w)) w)
    ∧ forall g,
        default ∅ (gm' !! g)
        = if decide (g ∈ gs) then current_members (coord w) (store w) g
          else snapshot (coord w) g.
Proof.
  induction gs as [|g gs IH]; intros w Hrun Hnd Hcreated.
  - exists (_group_members (coord w)). split.
    + simpl. unfold ret. by destruct w as [db [] hp cl].
    + intros g. rewrite decide_False; [done|]. apply not_elem_of_nil.
  - apply NoDup_cons in Hnd as [Hnotin Hnd].
    set (d1 := set_group_members
                 (fun gm => <[g := current_members (coord w) (store w) g]> gm)
                 (coord w)).
    destruct (IH (set_coord d1 w)) as (gm' & Hloop & Hsnap).
    { exact Hrun. }
    { exact Hnd. }
    { intros g' Hg'. apply (Hcreated g'). by apply list_elem_of_further. }
    exists gm'. split.
    + cbn [run_watchers_loop]. unfold bind at 1.
      rewrite run_watchers_group_spec
        by (done || apply Hcreated, list_elem_of_here).
      fold d1. unfold bind at 1. rewrite Hloop. unfold ret. simpl.
      f_equal. f_equal. f_equal.
      apply flat_map_ext_elem. intros g' Hg'.
      apply poll_events_other_snapshot. by intros ->.
    + intros g0. rewrite Hsnap.
      destruct (decide (g0 = g)) as [->|Hne].
      * rewrite decide_False by done.
        rewrite decide_True by apply list_elem_of_here.
        unfold snapshot, d1. simpl. by rewrite lookup_insert_eq.
      * destruct (decide (g0 ∈ gs)) as [Hin|Hnin].
        -- rewrite decide_True by by apply list_elem_of_further. done.
        -- rewrite decide_False by (intros [?|?]%elem_of_cons; done).
           unfold snapshot, d1. simpl. by rewrite lookup_insert_ne.
Qed.

(** A poll on a store whose registered groups are all created: the
    calls are those of each registered group against the snapshots of the
    start, and the snapshot of each registered group becomes its current
    members. *)
Lemma run_watchers_polls_registry (w : world) (timeout : option Q) :
  running (coord w) ->
  store_wf (coord w) (store w) ->
  registry_created (coord w) (store w) ->
  let d := coord w in
  let db := store w in
  exists w',
    run_watchers timeout w
    = (Ok (flat_map (poll_events d db) (elements (registry d db))), w')
    ∧ store w' = db
    ∧ (forall g,
         snapshot (coord w') g
         = if decide (g ∈ registry d db) then current_members d db g
           else snapshot d g)
    ∧ (forall g cb m,
         calls_of cb (MemberJoinedGroup g m) (poll_events d db g)
         = if decide (m ∈ current_members d db g ∖ snapshot d g)
           then length (filter (fun c => c = cb)
                          (hooks_of (_hooks_join_group d) g))
           else 0)
    ∧ (forall g cb m,
         calls_of cb (MemberLeftGroup g m) (poll_events d db g)
         = if decide (m ∈ snapshot d g ∖ current_members d db g)
           then length (filter (fun c => c = cb)
                          (hooks_of (_hooks_leave_group d) g))
           else 0).
Proof.
  intros Hrun Hwf Hcreated d db.
  destruct (run_watchers_loop_spec timeout (elements (registry d db)) w)
    as (gm' & Hloop & Hsnap).
  { exact Hrun. }
  { apply NoDup_elements. }
  { intros g Hg. apply Hcreated. by apply elem_of_elements. }
  eexists. split; [|split; [|split; [|split]]].
  - unfold run_watchers. unfold bind at 1.
    rewrite get_groups_registry by done. exact Hloop.
  - done.
  - intros g. unfold snapshot at 1. simpl. rewrite Hsnap.
    destruct (decide (g ∈ registry d db)) as [Hin|Hnin].
    + rewrite decide_True; [done|]. by apply elem_of_elements.
    + rewrite decide_False; [done|]. by rewrite elem_of_elements.
  - intros g cb m. apply group_events_joined.
  - intros g cb m. apply group_events_left.
Qed.

(** C7: for every group of the registry, [run_watchers] fetches the
    current members, calls every registered join callback once with each
    member of (current minus snapshot) and every registered leave
    callback once with each member of (snapshot minus current), and
    replaces the snapshot of the group by the current members. *)
Theorem run_watchers_diffs_each_group (w : world) (timeout : option Q) :
  running (coord w) ->
  store_wf (coord w) (store w) ->
  registry_created (coord w) (store w) ->
  let d := coord w in
  let db := store w in
  exists w',
    run_watchers timeout w
    = (Ok (flat_map (poll_events d db) (elements (registry d db))), w')
    ∧ store w' = db
    ∧ (forall g,
         snapshot (coord w') g
         = if decide (g ∈ registry d db) then current_members d db g
           else snapshot d g)
    ∧ (forall g cb m,
         calls_of cb (MemberJoinedGroup g m) (poll_events d db g)
         = if decide (m ∈ current_members d db g ∖ snapshot d g)
           then length (filter (fun c => c = cb)
                          (hooks_of (_hooks_join_group d) g))
           else 0)
    ∧ (forall g cb m,
         calls_of cb (MemberLeftGroup g m) (poll_events d db g)
         = if decide (m ∈ snapshot d g ∖ current_members d db g)
           then length (filter (fun c => c = cb)
                          (hooks_of (_hooks_leave_group d) g))
           else 0).
Proof.
  intros Hrun Hwf Hcreated. by apply run_watchers_polls_registry.
Qed.

Lemma run_watchers_diffs_each_group_witness :
  let w :=
    snd (get_of (join_group (@Ok string) "g" "caps") None
           (snd (watch_join_group "g" 7
                   (snd (get_of (create_group "g") None
                           (started_world "m1")))))) in
  exists w',
    run_watchers None w
    = (Ok (flat_map (poll_events (coord w) (store w))
             (elements (registry (coord w) (store w)))), w')
    ∧ store w' = store w
    ∧ (forall g,
         snapshot (coord w') g
         = if decide (g ∈ registry (coord w) (store w))
           then current_members (coord w) (store w) g
           else snapshot (coord w) g)
    ∧ (forall g cb m,
         calls_of cb (MemberJoinedGroup g m)
           (poll_events (coord w) (store w) g)
         = if decide (m ∈ current_members (coord w) (store w) g
                        ∖ snapshot (coord w) g)
           then length (filter (fun c => c = cb)
                          (hooks_of (_hooks_join_group (coord w)) g))
           else 0)
    ∧ (forall g cb m,
         calls_of cb (MemberLeftGroup g m)
           (poll_events (coord w) (store w) g)
         = if decide (m ∈ snapshot (coord w) g
                        ∖ current_members (coord w) (store w) g)
           then length (filter (fun c => c = cb)
                          (hooks_of (_hooks_leave_group (coord w)) g))
           else 0).
Proof.
  intros w. apply (run_watchers_diffs_each_group w None).
  - repeat split; reflexivity.
  - apply (bool_decide_unpack _). vm_compute. exact I.
  - apply (bool_decide_unpack _). vm_compute. exact I.
Defined.

(** The poll of the witness calls the one join callback once, with the
    member that joined after the registration. *)
Example run_watchers_after_join :
  fst (run_watchers None
         (snd (get_of (join_group (@Ok string) "g" "caps") None
                 (snd (watch_join_group "g" 7
                         (snd (get_of (create_group "g") None
                                 (started_world "m1"))))))))
  = Ok [(7, MemberJoinedGroup "g" "m1")].
Proof. vm_compute. reflexivity. Qed.

(** ** Registering a watcher *)

Lemma _init_watch_group_spec w g :
  running (coord w) ->
  sentinel_present (coord w) (store w) g = true ->
  _init_watch_group g w
  = (Ok tt,
     set_coord
       (set_group_members
          (fun gm =>
             <[g := default ∅ (gm !! g)
                    ∪ current_members (coord w) (store w) g]> gm)
          (coord w)) w).
Proof.
  intros Hrun Hs. unfold _init_watch_group. unfold bind at 1.
  by rewrite get_members_created.
Qed.

Lemma watch_spec kind w g cb :
  running (coord w) ->
  sentinel_present (coord w) (store w) g = true ->
  exists w1,
    watch kind g cb w = (Ok tt, w1)
    ∧ store w1 = store w
    ∧ running (coord w1)
    ∧ _namespace (coord w1) = _namespace (coord w)
    ∧ snapshot (coord w1) g
      = snapshot (coord w) g ∪ current_members (coord w) (store w) g.
Proof.
  intros Hrun Hs.
  destruct kind; simpl; unfold watch_join_group, watch_leave_group;
    unfold bind at 1; rewrite _init_watch_group_spec by done;
    (eexists; split; [reflexivity|]);
    (split; [done|]); (split; [exact Hrun|]); (split; [done|]);
    unfold snapshot; simpl; by rewrite lookup_insert_eq.
Qed.

Lemma elem_group_events_group d g old current c :
  c ∈ group_events d g old current -> event_group c.2 = g.
Proof.
  unfold group_events, Hooks_run. rewrite elem_of_app.
  intros [H|H]; apply list_elem_of_In, in_flat_map in H as (m & _ & H);
    apply list_elem_of_In, list_elem_of_fmap in H as (cb & -> & _); done.
Qed.

Lemma calls_of_absent cb ev l : (cb, ev) ∉ l -> calls_of cb ev l = 0.
Proof.
  intros H. unfold calls_of.
  induction l as [|c l IH]; [done|].
  rewrite filter_cons. apply not_elem_of_cons in H as [Hne Hl].
  rewrite decide_False by done. by apply IH.
Qed.

Lemma calls_of_flat_map_groups cb ev (f : string -> list (nat * event)) gs :
  (forall g, g ∈ gs -> calls_of cb ev (f g) = 0) ->
  calls_of cb ev (flat_map f gs) = 0.
Proof.
  induction gs as [|g gs IH]; intros H; cbn [flat_map]; [done|].
  rewrite calls_of_app, (H g) by apply list_elem_of_here.
  apply IH. intros g' Hg'. by apply H, list_elem_of_further.
Qed.

Lemma poll_events_other_group d db g' cb ev :
  event_group ev ≠ g' -> calls_of cb ev (poll_events d db g') = 0.
Proof.
  intros Hne. apply calls_of_absent. intros Hin.
  by apply elem_group_events_group in Hin.
Qed.

Lemma poll_events_up_to_date d db g :
  snapshot d g = current_members d db g -> poll_events d db g = [].
Proof.
  intros E. unfold poll_events, group_events. rewrite E.
  by rewrite difference_diag_L, elements_empty.
Qed.

(** A poll right after the snapshot of [g] was merged with the current
    members. *)
Lemma poll_after_merge w1 g timeout (old cur : gset string) :
  running (coord w1) ->
  store_wf (coord w1) (store w1) ->
  registry_created (coord w1) (store w1) ->
  snapshot (coord w1) g = old ∪ cur ->
  current_members (coord w1) (store w1) g = cur ->
  exists w2 evs,
    run_watchers timeout w1 = (Ok evs, w2)
    ∧ (forall cb m, calls_of cb (MemberJoinedGroup g m) evs = 0)
    ∧ (old ⊆ cur ->
       forall cb ev, event_group ev = g -> calls_of cb ev evs = 0).
Proof.
  intros Hrun Hwf Hcreated Hsnap Hcur.
  destruct (run_watchers_polls_registry w1 timeout Hrun Hwf Hcreated)
    as (w2 & Hrw & _ & _ & Hjoin & _).
  exists w2. eexists. split; [exact Hrw|]. split.
  - intros cb m. apply calls_of_flat_map_groups. intros g' _.
    destruct (decide (g' = g)) as [->|Hne].
    + rewrite Hjoin, Hsnap, Hcur. rewrite decide_False; [done|].
      rewrite elem_of_difference, elem_of_union. tauto.
    + by apply poll_events_other_group.
  - intros Hsub cb ev Hev. apply calls_of_flat_map_groups. intros g' _.
    destruct (decide (g' = g)) as [->|Hne].
    + rewrite poll_events_up_to_date; [done|].
      rewrite Hsnap, Hcur. by apply subseteq_union_1_L.
    + apply poll_events_other_group. by rewrite Hev.
Qed.

(** Every registration of a watcher, the first and the later ones,
    fetches the current members of the group and merges them into the
    group's snapshot (set union). The poll right after it therefore
    reports no join of the group at all, the joins since the last poll
    that earlier callbacks were owed included; only when the snapshot
    before the registration was absent, or within the current members,
    is the snapshot the current membership. *)
Lemma watch_registration_merges_snapshot (kind : watch_kind) (w : world)
    (g : string) (cb : nat) (timeout : option Q) :
  running (coord w) ->
  store_wf (coord w) (store w) ->
  registry_created (coord w) (store w) ->
  sentinel_present (coord w) (store w) g = true ->
  let d := coord w in
  let db := store w in
  exists w1 w2 evs,
    watch kind g cb w = (Ok tt, w1)
    ∧ snapshot (coord w1) g = snapshot d g ∪ current_members d db g
    ∧ run_watchers timeout w1 = (Ok evs, w2)
    ∧ (forall cb' m, calls_of cb' (MemberJoinedGroup g m) evs = 0)
    ∧ (snapshot d g ⊆ current_members d db g ->
       snapshot (coord w1) g = current_members d db g
       ∧ forall cb' ev, event_group ev = g -> calls_of cb' ev evs = 0).
Proof.
  intros Hrun Hwf Hcreated Hs d db.
  destruct (watch_spec kind w g cb Hrun Hs)
    as (w1 & Hwatch & Hstore & Hrun1 & Hns & Hsnap).
  assert (Hgroups : _groups (coord w1) = _groups d)
    by (unfold _groups; by rewrite Hns).
  assert (Hkey : forall g', _encode_group_id (coord w1) g'
                            = _encode_group_id d g')
    by (intros g'; unfold _encode_group_id, _group_prefix; by rewrite Hns).
  assert (Hwf1 : store_wf (coord w1) (store w1)).
  { rewrite Hstore. intros k v Hkv. specialize (Hwf k v Hkv).
    unfold wf_entry in *. by rewrite Hgroups. }
  assert (Hcreated1 : registry_created (coord w1) (store w1)).
  { unfold registry_created, registry, sentinel_present in *.
    rewrite Hstore, Hgroups. intros g' Hg'. rewrite Hkey.
    by apply Hcreated. }
  assert (Hcur : current_members (coord w1) (store w1) g
                 = current_members d db g).
  { unfold current_members, group_hash. by rewrite Hstore, Hkey. }
  destruct (poll_after_merge w1 g timeout (snapshot d g)
              (current_members d db g) Hrun1 Hwf1 Hcreated1 Hsnap Hcur)
    as (w2 & evs & Hrw & Hjoin & Hnone).
  exists w1, w2, evs. repeat split; try done.
  - rewrite Hsnap. by apply subseteq_union_1_L.
  - by apply Hnone.
Qed.

(** The same merge on a first registration that comes after a poll:
    the snapshot the poll left is merged with, not replaced by, the
    current members, so after the registration the snapshot is not the
    current membership, and the poll right after it calls the leave
    callback for a member that left before the registration. *)
Lemma first_registration_after_poll_reports_leave :
  let '(join_hooks, leave_hooks, snap, current, polled) :=
    watch_after_poll "g" 7 in
  join_hooks = [] ∧ leave_hooks = []
  ∧ snap = {[ "m1" ]} ∧ current = ∅ ∧ snap ≠ current
  ∧ polled = Ok [(7, MemberLeftGroup "g" "m1")].
Proof. vm_compute. repeat split; try reflexivity. discriminate. Qed.

(** C8, as the code behaves: a registration after the first corrupts
    the snapshot. A join callback is registered, a member joins, and a
    second callback is registered for the same group: its
    [_init_watch_group] merges the new member into the snapshot, so the
    poll that follows calls nothing, and the first callback is never told
    of the join. Without the second registration the same poll calls the
    first callback with the join. *)
Theorem later_registration_swallows_join :
  watch_twice "g" 1 2 = (Ok [], Ok [(1, MemberJoinedGroup "g" "m1")]).
Proof. vm_compute. reflexivity. Qed.

(** * Further properties of the driver *)

(** ** Joining, leaving and updating in a created group *)

Lemma created_hash d db g :
  sentinel_present d db g = true ->
  db !! _encode_group_id d g = Some (RHash (group_hash d db g))
  ∧ is_Some (group_hash d db g !! _GROUP_EXISTS).
Proof.
  unfold sentinel_present, group_hash.
  destruct (db !! _encode_group_id d g) as [[h|s]|]; try done.
  intros H. split; [done|]. by apply bool_decide_eq_true in H.
Qed.

Lemma created_exists d db g :
  sentinel_present d db g = true ->
  Redis.exists_ (_encode_group_id d g) db = true.
Proof. apply sentinel_present_exists. Qed.

Ltac enter_member_op Hm Hc :=
  rewrite get_of_bind; unfold bind at 1, get_coord;
  rewrite get_of_bind; unfold bind at 1, lift;
  rewrite (encode_valid_member_id _ Hm);
  rewrite get_of_bind; unfold bind at 1, the_client; rewrite Hc.

Section CreatedGroup.

Context {capabilities : Type}.
Variable msgpack_dumps : capabilities -> result string.
Variable msgpack_loads : string -> option capabilities.
Variable w : world.
Variable g : string.
Variable timeout : option (option Q).
Hypothesis Hrun : running (coord w).
Hypothesis Hmember : _member_id (coord w) ≠ _GROUP_EXISTS.
Hypothesis Hcreated : sentinel_present (coord w) (store w) g = true.

Let key := _encode_group_id (coord w) g.
Let m := _member_id (coord w).
Let h := group_hash (coord w) (store w) g.

Lemma join_group_new caps blob :
  h !! m = None ->
  msgpack_dumps caps = Ok blob ->
  get_of (join_group msgpack_dumps g caps) timeout w
  = (Ok tt,
     set_coord (set_joined_groups (fun s => {[g]} ∪ s) (coord w))
       (set_store (<[key := RHash (<[m := blob]> h)]> (store w)) w)).
Proof using Hrun Hmember Hcreated.
  intros Hnew Hd. pose proof Hrun as (_ & _ & Hc).
  destruct (created_hash _ _ _ Hcreated) as [Hkey _].
  unfold join_group. enter_member_op Hmember Hc.
  apply get_of_submit_ok; [done|].
  unfold _join_group, _dumps. unfold_call.
  unfold Redis.exists_, Redis.hset. rewrite Hkey, Hd. simpl.
  fold h m. rewrite Hkey. fold h. by rewrite Hnew.
Qed.

Lemma join_group_unserializable caps e :
  _dumps msgpack_dumps caps = Raise e ->
  get_of (join_group msgpack_dumps g caps) timeout w
  = (except_futures_timeout (_translate_failures (Raise e)), w).
Proof using Hrun Hmember Hcreated.
  intros Hd. pose proof Hrun as (_ & _ & Hc).
  unfold join_group. enter_member_op Hmember Hc.
  apply get_of_submit; [done| |done].
  unfold _join_group. unfold_call.
  by rewrite created_exists, Hd.
Qed.

Lemma leave_group_joined :
  is_Some (h !! m) ->
  get_of (leave_group g) timeout w
  = (Ok tt,
     set_coord (set_joined_groups (fun s => s ∖ {[g]}) (coord w))
       (set_store (<[key := RHash (delete m h)]> (store w)) w)).
Proof using Hrun Hmember Hcreated.
  intros [old Hold]. pose proof Hrun as (_ & _ & Hc).
  destruct (created_hash _ _ _ Hcreated) as [Hkey [s Hs]].
  unfold leave_group. enter_member_op Hmember Hc.
  apply get_of_submit_ok; [done|].
  unfold _leave_group. unfold_call. rewrite created_exists by done. simpl.
  unfold Redis.hdel. rewrite Hkey. fold h m. rewrite Hold.
  assert (Hkeep : delete m h !! _GROUP_EXISTS = Some s).
  { rewrite lookup_delete_ne; [done|]. by apply not_eq_sym. }
  rewrite decide_False; [done|].
  intros E. by rewrite E, lookup_empty in Hkeep.
Qed.

Lemma leave_group_not_joined :
  h !! m = None ->
  get_of (leave_group g) timeout w = (Raise (MemberNotJoined g m), w).
Proof using Hrun Hmember Hcreated.
  intros Hnone. pose proof Hrun as (_ & _ & Hc).
  destruct (created_hash _ _ _ Hcreated) as [Hkey _].
  unfold leave_group. enter_member_op Hmember Hc.
  apply get_of_submit_raise; [done| |done|done].
  unfold _leave_group. unfold_call. rewrite created_exists by done. simpl.
  unfold Redis.hdel. rewrite Hkey. fold h m. rewrite Hnone.
  simpl. by destruct w.
Qed.

Lemma update_capabilities_joined caps blob :
  is_Some (h !! m) ->
  msgpack_dumps caps = Ok blob ->
  get_of (update_capabilities msgpack_dumps g caps) timeout w
  = (Ok tt, set_store (<[key := RHash (<[m := blob]> h)]> (store w)) w).
Proof using Hrun Hmember Hcreated.
  intros Hin Hd. pose proof Hrun as (_ & _ & Hc).
  destruct (created_hash _ _ _ Hcreated) as [Hkey _].
  unfold update_capabilities. enter_member_op Hmember Hc.
  apply get_of_submit_ok; [done|].
  unfold _update_capabilities, _dumps. unfold_call.
  rewrite created_exists by done. simpl.
  unfold Redis.hexists, Redis.hset. rewrite Hkey. fold h m.
  rewrite bool_decide_eq_true_2 by done. simpl. rewrite Hd. simpl.
  by rewrite Hkey.
Qed.

Lemma update_capabilities_not_joined caps :
  h !! m = None ->
  get_of (update_capabilities msgpack_dumps g caps) timeout w
  = (Raise (MemberNotJoined g m), w).
Proof using Hrun Hmember Hcreated.
  intros Hnone. pose proof Hrun as (_ & _ & Hc).
  destruct (created_hash _ _ _ Hcreated) as [Hkey _].
  unfold update_capabilities. enter_member_op Hmember Hc.
  apply get_of_submit_raise; [done| |done|done].
  unfold _update_capabilities. unfold_call.
  rewrite created_exists by done. simpl.
  unfold Redis.hexists. rewrite Hkey. fold h m.
  rewrite bool_decide_eq_false_2; [done|].
  rewrite Hnone. by intros [? ?].
Qed.

Lemma update_capabilities_unserializable caps e :
  is_Some (h !! m) ->
  _dumps msgpack_dumps caps = Raise e ->
  get_of (update_capabilities msgpack_dumps g caps) timeout w
  = (except_futures_timeout (_translate_failures (Raise e)), w).
Proof using Hrun Hmember Hcreated.
  intros Hin Hd. pose proof Hrun as (_ & _ & Hc).
  destruct (created_hash _ _ _ Hcreated) as [Hkey _].
  unfold update_capabilities. enter_member_op Hmember Hc.
  apply get_of_submit; [done| |done].
  unfold _update_capabilities. unfold_call.
  rewrite created_exists by done. simpl.
  unfold Redis.hexists. rewrite Hkey. fold h m.
  rewrite bool_decide_eq_true_2 by done. simpl. by rewrite Hd.
Qed.

Lemma get_member_capabilities_created member_id :
  member_id ≠ _GROUP_EXISTS ->
  get_of (get_member_capabilities msgpack_loads g member_id) timeout w
  = (match h !! member_id with
     | None => Raise (MemberNotJoined g member_id)
     | Some blob =>
         match msgpack_loads blob with
         | Some caps => Ok caps
         | None => Raise ToozError
         end
     end, w).
Proof using Hrun Hcreated.
  intros Hm. pose proof Hrun as (_ & _ & Hc).
  destruct (created_hash _ _ _ Hcreated) as [Hkey _].
  unfold get_member_capabilities. enter_member_op Hm Hc.
  assert (Hbody :
    _get_member_capabilities msgpack_loads g member_id key member_id w
    = (match h !! member_id with
       | None => Raise (MemberNotJoined g member_id)
       | Some blob => _loads msgpack_loads blob
       end, w)).
  { unfold _get_member_capabilities. unfold_call.
    unfold key. rewrite created_exists by done. simpl.
    unfold Redis.hget. rewrite Hkey. fold h.
    by destruct (h !! member_id). }
  unfold transaction. fold key.
  destruct (h !! member_id) as [blob|] eqn:Hb.
  - unfold _loads in Hbody. destruct (msgpack_loads blob) as [caps|].
    + by apply get_of_submit_ok.
    + by apply get_of_submit_raise.
  - by apply get_of_submit_raise.
Qed.

End CreatedGroup.

Lemma encode_group_id_inj d g1 g2 :
  _encode_group_id d g1 = _encode_group_id d g2 -> g1 = g2.
Proof.
  unfold _encode_group_id, _group_prefix, _NAMESPACE_SEP.
  induction (_namespace d) as [|c ns IH]; simpl.
  - intros H. by injection H.
  - intros H. injection H as H. by apply IH.
Qed.

(** The store after the hash of one group was replaced. *)
Lemma group_hash_insert_eq d db g h' :
  group_hash d (<[_encode_group_id d g := RHash h']> db) g = h'.
Proof. unfold group_hash. by rewrite lookup_insert_eq. Qed.

Lemma group_hash_insert_ne d db g g' h' :
  g' ≠ g ->
  group_hash d (<[_encode_group_id d g := RHash h']> db) g'
  = group_hash d db g'.
Proof.
  intros Hne. unfold group_hash. rewrite lookup_insert_ne; [done|].
  intros E. by apply encode_group_id_inj in E.
Qed.

Lemma sentinel_present_insert d db g h' :
  is_Some (h' !! _GROUP_EXISTS) ->
  sentinel_present d (<[_encode_group_id d g := RHash h']> db) g = true.
Proof.
  intros H. unfold sentinel_present. rewrite lookup_insert_eq.
  by apply bool_decide_eq_true.
Qed.

(** X1: a member that has not joined a created group joins it: the
    call returns, the member's entry holds the serialized capabilities,
    the group is recorded in [_joined_groups], the hashes of the other
    groups are as before, and [get_members] lists the member together
    with the members of before. *)
Theorem join_group_adds_member {capabilities : Type}
    (msgpack_dumps : capabilities -> result string)
    (w : world) (g : string) (caps : capabilities) (blob : string)
    (timeout : option (option Q)) :
  running (coord w) ->
  _member_id (coord w) ≠ _GROUP_EXISTS ->
  sentinel_present (coord w) (store w) g = true ->
  group_hash (coord w) (store w) g !! _member_id (coord w) = None ->
  msgpack_dumps caps = Ok blob ->
  let m := _member_id (coord w) in
  exists w',
    get_of (join_group msgpack_dumps g caps) timeout w = (Ok tt, w')
    ∧ group_hash (coord w') (store w') g
      = <[m := blob]> (group_hash (coord w) (store w) g)
    ∧ (forall g', g' ≠ g ->
         group_hash (coord w') (store w') g'
         = group_hash (coord w) (store w) g')
    ∧ _joined_groups (coord w') = {[g]} ∪ _joined_groups (coord w)
    ∧ exists members,
        get_of (get_members g) timeout w' = (Ok members, w')
        ∧ forall m', m' ∈ members <->
            m' = m ∨ m' ∈ members_of (group_hash (coord w) (store w) g).
Proof.
  intros Hrun Hm Hcr Hnew Hd m.
  destruct (created_hash _ _ _ Hcr) as [Hkey [s Hs]].
  set (h := group_hash (coord w) (store w) g) in *.
  set (w' := set_coord
               (set_joined_groups (fun s => {[g]} ∪ s) (coord w))
               (set_store
                  (<[_encode_group_id (coord w) g := RHash (<[m := blob]> h)]>
                     (store w)) w)).
  assert (Hjoin : get_of (join_group msgpack_dumps g caps) timeout w
                  = (Ok tt, w')) by by apply join_group_new.
  assert (Hgh : group_hash (coord w') (store w') g = <[m := blob]> h)
    by apply (group_hash_insert_eq (coord w)).
  assert (Hcr' : sentinel_present (coord w') (store w') g = true).
  { apply (sentinel_present_insert (coord w)).
    rewrite lookup_insert_ne by by apply not_eq_sym. eauto. }
  exists w'. split; [done|]. split; [done|].
  split; [intros g' Hne; by apply (group_hash_insert_ne (coord w))|].
  split; [done|].
  eexists. split; [by apply get_members_created|].
  intros m'. rewrite Hgh, !elem_of_members_of.
  destruct (decide (m' = m)) as [->|Hne].
  - rewrite lookup_insert_eq. split; [by left|]. intros _. split; [done|eauto].
  - rewrite lookup_insert_ne by by apply not_eq_sym. split; [by right|].
    by intros [?|?].
Qed.

Lemma join_group_adds_member_witness :
  let w := (get_of (create_group "g") None (started_world "m1")).2 in
  exists w',
    get_of (join_group (@Ok string) "g" "caps") None w = (Ok tt, w')
    ∧ group_hash (coord w') (store w') "g"
      = <["m1" := "caps"]> (group_hash (coord w) (store w) "g")
    ∧ (forall g', g' ≠ "g" ->
         group_hash (coord w') (store w') g'
         = group_hash (coord w) (store w) g')
    ∧ _joined_groups (coord w') = {[ "g" ]} ∪ _joined_groups (coord w)
    ∧ exists members,
        get_of (get_members "g") None w' = (Ok members, w')
        ∧ forall m', m' ∈ members <->
            m' = "m1" ∨ m' ∈ members_of (group_hash (coord w) (store w) "g").
Proof.
  intros w.
  apply (join_group_adds_member (@Ok string) w "g" "caps" "caps" None).
  - repeat split; reflexivity.
  - discriminate.
  - reflexivity.
  - reflexivity.
  - reflexivity.
Defined.

(** X2: what [join_group] stored is what [get_member_capabilities]
    reads back: when the codec decodes the blob it made to the
    capabilities it was given, the member's capabilities right after the
    join are the ones joined with. *)
Theorem join_then_get_member_capabilities {capabilities : Type}
    (msgpack_dumps : capabilities -> result string)
    (msgpack_loads : string -> option capabilities)
    (w : world) (g : string) (caps : capabilities) (blob : string)
    (timeout timeout' : option (option Q)) :
  running (coord w) ->
  _member_id (coord w) ≠ _GROUP_EXISTS ->
  sentinel_present (coord w) (store w) g = true ->
  group_hash (coord w) (store w) g !! _member_id (coord w) = None ->
  msgpack_dumps caps = Ok blob ->
  msgpack_loads blob = Some caps ->
  let w' := (get_of (join_group msgpack_dumps g caps) timeout w).2 in
  get_of (get_member_capabilities msgpack_loads g (_member_id (coord w)))
    timeout' w'
  = (Ok caps, w').
Proof.
  intros Hrun Hm Hcr Hnew Hd Hl w0. subst w0.
  destruct (created_hash _ _ _ Hcr) as [Hkey [s Hs]].
  rewrite (join_group_new msgpack_dumps w g timeout Hrun Hm Hcr caps blob)
    by done.
  cbn [snd].
  set (h := group_hash (coord w) (store w) g) in *.
  set (m := _member_id (coord w)) in *.
  set (w' := set_coord _ _).
  assert (Hgh : group_hash (coord w') (store w') g = <[m := blob]> h)
    by apply (group_hash_insert_eq (coord w)).
  assert (Hcr' : sentinel_present (coord w') (store w') g = true).
  { apply (sentinel_present_insert (coord w)).
    rewrite lookup_insert_ne by by apply not_eq_sym. eauto. }
  rewrite get_member_capabilities_created by done.
  by rewrite Hgh, lookup_insert_eq, Hl.
Qed.

Lemma join_then_get_member_capabilities_witness :
  let w := (get_of (create_group "g") None (started_world "m1")).2 in
  let w' := (get_of (join_group (@Ok string) "g" "caps") None w).2 in
  get_of (get_member_capabilities (@Some string) "g" "m1") None w'
  = (Ok "caps", w').
Proof.
  intros w.
  apply (join_then_get_member_capabilities (@Ok string) (@Some string)
           w "g" "caps" "caps" None None).
  - repeat split; reflexivity.
  - discriminate.
  - reflexivity.
  - reflexivity.
  - reflexivity.
  - reflexivity.
Defined.

(** X3: a member that has joined a created group leaves it: its entry
    is deleted and the group is dropped from [_joined_groups], the group
    stays created (the sentinel keeps its hash alive, also when the last
    member leaves), [get_members] lists the other members only, and
    leaving again fails with [MemberNotJoined]. *)
Theorem leave_group_removes_member (w : world) (g : string)
    (timeout : option (option Q)) :
  running (coord w) ->
  _member_id (coord w) ≠ _GROUP_EXISTS ->
  sentinel_present (coord w) (store w) g = true ->
  is_Some (group_hash (coord w) (store w) g !! _member_id (coord w)) ->
  let m := _member_id (coord w) in
  let h := group_hash (coord w) (store w) g in
  exists w',
    get_of (leave_group g) timeout w = (Ok tt, w')
    ∧ sentinel_present (coord w') (store w') g = true
    ∧ group_hash (coord w') (store w') g = delete m h
    ∧ _joined_groups (coord w') = _joined_groups (coord w) ∖ {[g]}
    ∧ get_of (leave_group g) timeout w' = (Raise (MemberNotJoined g m), w')
    ∧ exists members,
        get_of (get_members g) timeout w' = (Ok members, w')
        ∧ forall m', m' ∈ members <-> m' ≠ m ∧ m' ∈ members_of h.
Proof.
  intros Hrun Hm Hcr Hin m h.
  destruct (created_hash _ _ _ Hcr) as [Hkey [s Hs]]. fold h in Hkey, Hs.
  set (w' := set_coord
               (set_joined_groups (fun s => s ∖ {[g]}) (coord w))
               (set_store
                  (<[_encode_group_id (coord w) g := RHash (delete m h)]>
                     (store w)) w)).
  assert (Hleave : get_of (leave_group g) timeout w = (Ok tt, w'))
    by by apply leave_group_joined.
  assert (Hgh : group_hash (coord w') (store w') g = delete m h)
    by apply (group_hash_insert_eq (coord w)).
  assert (Hcr' : sentinel_present (coord w') (store w') g = true).
  { apply (sentinel_present_insert (coord w)).
    rewrite lookup_delete_ne by by apply not_eq_sym. eauto. }
  exists w'. split; [done|]. split; [done|]. split; [done|]. split; [done|].
  split.
  - apply (leave_group_not_joined w' g timeout Hrun Hm Hcr').
    rewrite Hgh. apply lookup_delete_eq.
  - eexists. split; [by apply get_members_created|].
    intros m'. rewrite Hgh, !elem_of_members_of.
    destruct (decide (m' = m)) as [->|Hne].
    + rewrite lookup_delete_eq. split; [by intros [_ [? ?]]|by intros [? _]].
    + rewrite lookup_delete_ne by by apply not_eq_sym. tauto.
Qed.

Lemma leave_group_removes_member_witness :
  let w := (get_of (join_group (@Ok string) "g" "caps") None
              (get_of (create_group "g") None (started_world "m1")).2).2 in
  exists w',
    get_of (leave_group "g") None w = (Ok tt, w')
    ∧ sentinel_present (coord w') (store w') "g" = true
    ∧ group_hash (coord w') (store w') "g"
      = delete "m1" (group_hash (coord w) (store w) "g")
    ∧ _joined_groups (coord w') = _joined_groups (coord w) ∖ {[ "g" ]}
    ∧ get_of (leave_group "g") None w'
      = (Raise (MemberNotJoined "g" "m1"), w')
    ∧ exists members,
        get_of (get_members "g") None w' = (Ok members, w')
        ∧ forall m', m' ∈ members <->
            m' ≠ "m1" ∧ m' ∈ members_of (group_hash (coord w) (store w) "g").
Proof.
  intros w. apply (leave_group_removes_member w "g" None).
  - repeat split; reflexivity.
  - discriminate.
  - reflexivity.
  - vm_compute. eauto.
Defined.

(** X4: a write to a created group that is refused before its HSET or
    HDEL changes nothing. [leave_group] and [update_capabilities] by a
    member that has not joined fail with [MemberNotJoined]. When
    [msgpack.dumps] raises [PackException] or [ValueError], [join_group]
    and [update_capabilities] fail with [ToozError]; when it raises
    [TypeError], which the handler of [_dumps] does not catch, they fail
    with that [TypeError], untranslated. The world after each is the
    world before it. *)
Theorem refused_group_writes_change_nothing {capabilities : Type}
    (msgpack_dumps : capabilities -> result string)
    (w : world) (g : string) (caps : capabilities)
    (timeout : option (option Q)) :
  running (coord w) ->
  _member_id (coord w) ≠ _GROUP_EXISTS ->
  sentinel_present (coord w) (store w) g = true ->
  let m := _member_id (coord w) in
  let h := group_hash (coord w) (store w) g in
  (h !! m = None ->
   get_of (leave_group g) timeout w = (Raise (MemberNotJoined g m), w)
   ∧ get_of (update_capabilities msgpack_dumps g caps) timeout w
     = (Raise (MemberNotJoined g m), w))
  ∧ (msgpack_dumps caps = Raise MsgpackPackException
     ∨ msgpack_dumps caps = Raise ValueError ->
     get_of (join_group msgpack_dumps g caps) timeout w = (Raise ToozError, w)
     ∧ (is_Some (h !! m) ->
        get_of (update_capabilities msgpack_dumps g caps) timeout w
        = (Raise ToozError, w)))
  ∧ (msgpack_dumps caps = Raise TypeError ->
     get_of (join_group msgpack_dumps g caps) timeout w = (Raise TypeError, w)
     ∧ (is_Some (h !! m) ->
        get_of (update_capabilities msgpack_dumps g caps) timeout w
        = (Raise TypeError, w))).
Proof.
  intros Hrun Hm Hcr m h. split; [|split].
  - intros Hnone. split.
    + by apply leave_group_not_joined.
    + by apply update_capabilities_not_joined.
  - intros Hd.
    assert (Hdumps : _dumps msgpack_dumps caps = Raise ToozError)
      by (unfold _dumps; by destruct Hd as [-> | ->]).
    split.
    + by rewrite (join_group_unserializable msgpack_dumps w g timeout
                    Hrun Hm Hcr caps ToozError).
    + intros Hin.
      by rewrite (update_capabilities_unserializable msgpack_dumps w g
                    timeout Hrun Hm Hcr caps ToozError).
  - intros Hd.
    assert (Hdumps : _dumps msgpack_dumps caps = Raise TypeError)
      by (unfold _dumps; by rewrite Hd).
    split.
    + by rewrite (join_group_unserializable msgpack_dumps w g timeout
                    Hrun Hm Hcr caps TypeError).
    + intros Hin.
      by rewrite (update_capabilities_unserializable msgpack_dumps w g
                    timeout Hrun Hm Hcr caps TypeError).
Qed.

Lemma refused_group_writes_change_nothing_witness :
  let w := (get_of (create_group "g") None (started_world "m1")).2 in
  (get_of (leave_group "g") None w = (Raise (MemberNotJoined "g" "m1"), w)
   ∧ get_of (update_capabilities
               (fun _ : string => Raise MsgpackPackException) "g" "caps")
       None w
     = (Raise (MemberNotJoined "g" "m1"), w))
  ∧ get_of (join_group (fun _ : string => Raise MsgpackPackException)
              "g" "caps") None w
    = (Raise ToozError, w).
Proof.
  intros w.
  destruct (refused_group_writes_change_nothing
              (fun _ : string => Raise MsgpackPackException) w "g" "caps"
              None) as (H1 & H2 & _).
  - repeat split; reflexivity.
  - discriminate.
  - reflexivity.
  - split; [apply H1; reflexivity|apply H2; left; reflexivity].
Defined.

(** The same calls with a codec that raises [TypeError]: the caller of
    [get()] is handed the [TypeError]. *)
Example join_group_type_error :
  let w := (get_of (create_group "g") None (started_world "m1")).2 in
  get_of (join_group (fun _ : string => Raise TypeError) "g" "caps") None w
  = (Raise TypeError, w).
Proof. reflexivity. Qed.

(** X5: [update_capabilities] by a member that has joined replaces its
    capabilities and nothing else: the driver is as before, the entries
    of the other members are as before, and what
    [get_member_capabilities] reads back is the new capabilities (for a
    codec that decodes the blob it made). *)
Theorem update_capabilities_overwrites {capabilities : Type}
    (msgpack_dumps : capabilities -> result string)
    (msgpack_loads : string -> option capabilities)
    (w : world) (g : string) (caps : capabilities) (blob : string)
    (timeout : option (option Q)) :
  running (coord w) ->
  _member_id (coord w) ≠ _GROUP_EXISTS ->
  sentinel_present (coord w) (store w) g = true ->
  is_Some (group_hash (coord w) (store w) g !! _member_id (coord w)) ->
  msgpack_dumps caps = Ok blob ->
  msgpack_loads blob = Some caps ->
  let m := _member_id (coord w) in
  let h := group_hash (coord w) (store w) g in
  exists w',
    get_of (update_capabilities msgpack_dumps g caps) timeout w = (Ok tt, w')
    ∧ coord w' = coord w
    ∧ group_hash (coord w') (store w') g = <[m := blob]> h
    ∧ (forall g', g' ≠ g ->
         group_hash (coord w') (store w') g'
         = group_hash (coord w) (store w) g')
    ∧ get_of (get_member_capabilities msgpack_loads g m) timeout w'
      = (Ok caps, w').
Proof.
  intros Hrun Hm Hcr Hin Hd Hl m h.
  destruct (created_hash _ _ _ Hcr) as [Hkey [s Hs]]. fold h in Hkey, Hs.
  set (w' := set_store
               (<[_encode_group_id (coord w) g := RHash (<[m := blob]> h)]>
                  (store w)) w).
  assert (Hupd : get_of (update_capabilities msgpack_dumps g caps) timeout w
                 = (Ok tt, w'))
    by by apply update_capabilities_joined.
  assert (Hgh : group_hash (coord w') (store w') g = <[m := blob]> h)
    by apply (group_hash_insert_eq (coord w)).
  assert (Hcr' : sentinel_present (coord w') (store w') g = true).
  { apply (sentinel_present_insert (coord w)).
    rewrite lookup_insert_ne by by apply not_eq_sym. eauto. }
  exists w'. split; [done|]. split; [done|]. split; [done|].
  split; [intros g' Hne; by apply (group_hash_insert_ne (coord w))|].
  rewrite (get_member_capabilities_created msgpack_loads w' g timeout
             Hrun Hcr' m Hm).
  by rewrite Hgh, lookup_insert_eq, Hl.
Qed.

Lemma update_capabilities_overwrites_witness :
  let w := (get_of (join_group (@Ok string) "g" "caps") None
              (get_of (create_group "g") None (started_world "m1")).2).2 in
  exists w',
    get_of (update_capabilities (@Ok string) "g" "caps2") None w
    = (Ok tt, w')
    ∧ coord w' = coord w
    ∧ group_hash (coord w') (store w') "g"
      = <["m1" := "caps2"]> (group_hash (coord w) (store w) "g")
    ∧ (forall g', g' ≠ "g" ->
         group_hash (coord w') (store w') g'
         = group_hash (coord w) (store w) g')
    ∧ get_of (get_member_capabilities (@Some string) "g" "m1") None w'
      = (Ok "caps2", w').
Proof.
  intros w.
  apply (update_capabilities_overwrites (@Ok string) (@Some string)
           w "g" "caps2" "caps2" None).
  - repeat split; reflexivity.
  - discriminate.
  - reflexivity.
  - vm_compute. eauto.
  - reflexivity.
  - reflexivity.
Defined.

(** X6: [get_member_capabilities] on a created group reads and changes
    nothing: it fails with [MemberNotJoined] for a member without an
    entry, with [ToozError] for a blob the codec cannot decode, and returns
    the decoded capabilities otherwise; asked for the reserved id it
    raises [ValueError] at the call, before anything is submitted. *)
Theorem get_member_capabilities_outcomes {capabilities : Type}
    (msgpack_loads : string -> option capabilities)
    (w : world) (g member_id : string) (timeout : option (option Q)) :
  running (coord w) ->
  sentinel_present (coord w) (store w) g = true ->
  (member_id ≠ _GROUP_EXISTS ->
   get_of (get_member_capabilities msgpack_loads g member_id) timeout w
   = (match group_hash (coord w) (store w) g !! member_id with
      | None => Raise (MemberNotJoined g member_id)
      | Some blob =>
          match msgpack_loads blob with
          | Some caps => Ok caps
          | None => Raise ToozError
          end
      end, w))
  ∧ get_member_capabilities msgpack_loads g _GROUP_EXISTS w
    = (Raise ValueError, w).
Proof.
  intros Hrun Hcr. split.
  - intros Hm. by apply get_member_capabilities_created.
  - reflexivity.
Qed.

Lemma get_member_capabilities_outcomes_witness :
  let w := (get_of (create_group "g") None (started_world "m1")).2 in
  get_of (get_member_capabilities (@Some string) "g" "m2") None w
  = (Raise (MemberNotJoined "g" "m2"), w).
Proof.
  intros w.
  apply (proj1 (get_member_capabilities_outcomes (@Some string) w "g" "m2"
                  None ltac:(repeat split; reflexivity) eq_refl)).
  discriminate.
Defined.

(** ** What [get()] can raise *)

Lemma get_of_submit_tooz {A} (work : M A) timeout w :
  running (coord w) ->
  body_outcome (work w).1 = true ->
  tooz_outcome (get_of (_submit work) timeout w).1 = true.
Proof.
  intros Hrun Hb. destruct (work w) as [r w'] eqn:Hw. simpl in Hb.
  rewrite (get_of_submit work timeout w r w') by (done || by destruct r).
  destruct r as [a|e|]; [done| |done]. by destruct e.
Qed.

Ltac solve_body :=
  unfold_call;
  unfold Redis.exists_, Redis.hset, Redis.hdel, Redis.hexists, Redis.hget,
    Redis.hkeys, Redis.sadd, Redis.smembers;
  repeat (case_match; simpl in *; simplify_eq; try done).

Section BodyOutcomes.

Context {capabilities : Type}.
Variable msgpack_dumps : capabilities -> result string.
Variable msgpack_loads : string -> option capabilities.
Variable w : world.

Lemma _create_group_outcome g k :
  body_outcome (_create_group g k w).1 = true.
Proof. unfold _create_group. solve_body. Qed.

Lemma _dumps_outcome caps :
  dumps_handled (msgpack_dumps caps) = true ->
  body_outcome (_dumps msgpack_dumps caps) = true.
Proof.
  unfold _dumps. destruct (msgpack_dumps caps) as [blob|e|]; [done| |done].
  by destruct e.
Qed.

Lemma _join_group_outcome g caps k m :
  dumps_handled (msgpack_dumps caps) = true ->
  body_outcome (_join_group msgpack_dumps g caps k m w).1 = true.
Proof.
  intros Hd. apply _dumps_outcome in Hd. revert Hd.
  unfold _join_group. generalize (_dumps msgpack_dumps caps). intros r.
  solve_body.
Qed.

Lemma _leave_group_outcome g k m :
  body_outcome (_leave_group g k m w).1 = true.
Proof. unfold _leave_group. solve_body. Qed.

Lemma _update_capabilities_outcome g caps k m :
  dumps_handled (msgpack_dumps caps) = true ->
  body_outcome (_update_capabilities msgpack_dumps g caps k m w).1 = true.
Proof.
  intros Hd. apply _dumps_outcome in Hd. revert Hd.
  unfold _update_capabilities. generalize (_dumps msgpack_dumps caps).
  intros r. solve_body.
Qed.

Lemma _get_members_outcome g k :
  body_outcome (_get_members g k w).1 = true.
Proof. unfold _get_members. solve_body. Qed.

Lemma _get_member_capabilities_outcome g member_id k m :
  body_outcome (_get_member_capabilities msgpack_loads g member_id k m w).1
  = true.
Proof. unfold _get_member_capabilities, _loads. solve_body. Qed.

Lemma _get_groups_outcome : body_outcome (_get_groups w).1 = true.
Proof. unfold _get_groups. solve_body. Qed.

End BodyOutcomes.

Section ToozOutcomes.

Context {capabilities : Type}.
Variable msgpack_dumps : capabilities -> result string.
Variable msgpack_loads : string -> option capabilities.
Variable w : world.
Variable timeout : option (option Q).
Hypothesis Hrun : running (coord w).
Hypothesis Hmember : _member_id (coord w) ≠ _GROUP_EXISTS.

Lemma create_group_tooz g :
  tooz_outcome (get_of (create_group g) timeout w).1 = true.
Proof using Hrun.
  pose proof Hrun as (_ & _ & Hc).
  unfold create_group. rewrite get_of_bind. unfold bind at 1, get_coord.
  rewrite get_of_bind. unfold bind at 1, the_client. rewrite Hc.
  apply get_of_submit_tooz; [done|]. apply _create_group_outcome.
Qed.

Lemma get_members_tooz g :
  tooz_outcome (get_of (get_members g) timeout w).1 = true.
Proof using Hrun.
  pose proof Hrun as (_ & _ & Hc).
  unfold get_members. rewrite get_of_bind. unfold bind at 1, get_coord.
  rewrite get_of_bind. unfold bind at 1, the_client. rewrite Hc.
  apply get_of_submit_tooz; [done|]. apply _get_members_outcome.
Qed.

Lemma get_groups_tooz :
  tooz_outcome (get_of get_groups timeout w).1 = true.
Proof using Hrun.
  unfold get_groups. apply get_of_submit_tooz; [done|].
  apply _get_groups_outcome.
Qed.

Lemma join_group_tooz g caps :
  dumps_handled (msgpack_dumps caps) = true ->
  tooz_outcome (get_of (join_group msgpack_dumps g caps) timeout w).1 = true.
Proof using Hrun Hmember.
  intros Hd. pose proof Hrun as (_ & _ & Hc).
  unfold join_group. enter_member_op Hmember Hc.
  apply get_of_submit_tooz; [done|]. by apply _join_group_outcome.
Qed.

Lemma leave_group_tooz g :
  tooz_outcome (get_of (leave_group g) timeout w).1 = true.
Proof using Hrun Hmember.
  pose proof Hrun as (_ & _ & Hc).
  unfold leave_group. enter_member_op Hmember Hc.
  apply get_of_submit_tooz; [done|]. apply _leave_group_outcome.
Qed.

Lemma update_capabilities_tooz g caps :
  dumps_handled (msgpack_dumps caps) = true ->
  tooz_outcome (get_of (update_capabilities msgpack_dumps g caps) timeout w).1
  = true.
Proof using Hrun Hmember.
  intros Hd. pose proof Hrun as (_ & _ & Hc).
  unfold update_capabilities. enter_member_op Hmember Hc.
  apply get_of_submit_tooz; [done|]. by apply _update_capabilities_outcome.
Qed.

Lemma get_member_capabilities_tooz g member_id :
  member_id ≠ _GROUP_EXISTS ->
  tooz_outcome
    (get_of (get_member_capabilities msgpack_loads g member_id) timeout w).1
  = true.
Proof using Hrun.
  intros Hm. pose proof Hrun as (_ & _ & Hc).
  unfold get_member_capabilities. enter_member_op Hm Hc.
  apply get_of_submit_tooz; [done|]. apply _get_member_capabilities_outcome.
Qed.

End ToozOutcomes.

(** X7: on a running driver, whatever the store holds (keys of the
    wrong type included), [get()] on the result of a group operation
    returns a value or raises a [ToozError] (the class or a subclass):
    no error of the store reaches the caller untranslated, and the call
    does not wait for ever. For [join_group] and [update_capabilities]
    this needs [msgpack.dumps] to return or to raise one of the two
    exceptions [_dumps] handles ([PackException], [ValueError]); any
    other exception of it reaches the caller as it is. *)
Theorem group_operations_raise_only_tooz_errors {capabilities : Type}
    (msgpack_dumps : capabilities -> result string)
    (msgpack_loads : string -> option capabilities)
    (w : world) (g member_id : string) (caps : capabilities)
    (timeout : option (option Q)) :
  running (coord w) ->
  _member_id (coord w) ≠ _GROUP_EXISTS ->
  member_id ≠ _GROUP_EXISTS ->
  dumps_handled (msgpack_dumps caps) = true ->
  tooz_outcome (get_of (create_group g) timeout w).1 = true
  ∧ tooz_outcome (get_of (join_group msgpack_dumps g caps) timeout w).1 = true
  ∧ tooz_outcome (get_of (leave_group g) timeout w).1 = true
  ∧ tooz_outcome
      (get_of (update_capabilities msgpack_dumps g caps) timeout w).1 = true
  ∧ tooz_outcome (get_of (get_members g) timeout w).1 = true
  ∧ tooz_outcome
      (get_of (get_member_capabilities msgpack_loads g member_id) timeout w).1
    = true
  ∧ tooz_outcome (get_of get_groups timeout w).1 = true.
Proof.
  intros Hrun Hm Hm' Hd. repeat split.
  - by apply create_group_tooz.
  - by apply join_group_tooz.
  - by apply leave_group_tooz.
  - by apply update_capabilities_tooz.
  - by apply get_members_tooz.
  - by apply get_member_capabilities_tooz.
  - by apply get_groups_tooz.
Qed.

(** The witness: the group's key holds a set, so every hash command on
    it is refused by the store. *)
Lemma group_operations_raise_only_tooz_errors_witness :
  let w := set_store {[ "_tooz_group:g" := RSet ∅ ]} (started_world "m1") in
  get_of (get_members "g") None w = (Raise ToozError, w)
  ∧ tooz_outcome (get_of (join_group (@Ok string) "g" "caps") None w).1
    = true.
Proof.
  intros w.
  destruct (group_operations_raise_only_tooz_errors (@Ok string)
              (@Some string) w "g" "m2" "caps" None)
    as (_ & Hjoin & _).
  - repeat split; reflexivity.
  - discriminate.
  - discriminate.
  - reflexivity.
  - split; [reflexivity|exact Hjoin].
Defined.

(** ** [_translate_failures] *)

(** X8: [_translate_failures] lets no error of the store through: a
    connection or timeout error becomes [ToozConnectionError], any other
    [RedisError] becomes [ToozError], and values and all other exceptions
    pass as they are; translating twice is translating once. *)
Theorem translate_failures_hides_store_errors {A : Type} (r : result A) :
  (forall e, _translate_failures r = Raise e -> is_RedisError e = false)
  ∧ (forall e, r = Raise e -> is_RedisError e = true ->
       _translate_failures r = Raise (translated e)
       ∧ is_ToozError (translated e) = true)
  ∧ (forall e, r = Raise e -> is_RedisError e = false ->
       _translate_failures r = r)
  ∧ (forall a, r = Ok a -> _translate_failures r = r)
  ∧ _translate_failures (_translate_failures r) = _translate_failures r.
Proof.
  repeat split.
  - intros e. destruct r as [a|e'|]; try done. by destruct e'; intros [= <-].
  - subst. by destruct e.
  - subst. by destruct e.
  - intros e -> He. by destruct e.
  - by intros a ->.
  - destruct r as [a|e|]; try done. by destruct e.
Qed.

Lemma translate_failures_hides_store_errors_witness :
  _translate_failures (@Raise unit RedisTimeoutError)
  = Raise (translated RedisTimeoutError)
  ∧ is_ToozError (translated RedisTimeoutError) = true.
Proof.
  apply (proj1 (proj2 (translate_failures_hides_store_errors
                         (@Raise unit RedisTimeoutError)))
           RedisTimeoutError eq_refl eq_refl).
Defined.

(** ** Calls on a driver that is not running; calls that only read *)

(** X9: [_submit] hands nothing to the executor of a driver that is not
    started, or whose executor was shut down: it raises [ToozError] and
    the work is not run. On a driver that was never started or was
    stopped ([_client] is [None]) the operations that pass
    [self._client.transaction] raise [AttributeError] at the call, and
    [get_groups] raises [ToozError]; the world is as before. *)
Theorem calls_on_a_stopped_driver_submit_nothing {capabilities : Type}
    (msgpack_dumps : capabilities -> result string)
    (msgpack_loads : string -> option capabilities)
    (w : world) (g : string) (caps : capabilities) :
  (_started (coord w) = false
   ∨ _executor (coord w) = Some ExecutorShutdown) ->
  (forall (A : Type) (work : M A), _submit work w = (Raise ToozError, w))
  ∧ get_groups w = (Raise ToozError, w)
  ∧ (_client (coord w) = false ->
     _member_id (coord w) ≠ _GROUP_EXISTS ->
     create_group g w = (Raise AttributeError, w)
     ∧ join_group msgpack_dumps g caps w = (Raise AttributeError, w)
     ∧ leave_group g w = (Raise AttributeError, w)
     ∧ update_capabilities msgpack_dumps g caps w = (Raise AttributeError, w)
     ∧ get_members g w = (Raise AttributeError, w)
     ∧ get_member_capabilities msgpack_loads g (_member_id (coord w)) w
       = (Raise AttributeError, w)).
Proof.
  intros Hnot.
  assert (Hsub : forall (A : Type) (work : M A),
             _submit work w = (Raise ToozError, w)).
  { intros A work. unfold _submit.
    destruct (_started (coord w)); simpl; [|done].
    destruct Hnot as [? | ->]; done. }
  split; [exact Hsub|]. split; [apply Hsub|].
  intros Hc Hm.
  unfold create_group, join_group, leave_group, update_capabilities,
    get_members, get_member_capabilities.
  unfold_call. rewrite (encode_valid_member_id _ Hm), Hc. done.
Qed.

Lemma calls_on_a_stopped_driver_submit_nothing_witness :
  let w := mkWorld ∅ (RedisDriver_init "m1" "_tooz" 30) ∅ [] in
  get_groups w = (Raise ToozError, w)
  ∧ create_group "g" w = (Raise AttributeError, w).
Proof.
  intros w.
  destruct (calls_on_a_stopped_driver_submit_nothing (@Ok string)
              (@Some string) w "g" "caps") as (_ & Hg & Hc).
  - left. reflexivity.
  - split; [exact Hg|]. apply Hc; [reflexivity|discriminate].
Defined.

Lemma get_of_submit_read_only {A} (work : M A) timeout w :
  (forall w0, (work w0).2 = w0) ->
  (get_of (_submit work) timeout w).2 = w.
Proof.
  intros Hread. unfold get_of, bind, _submit.
  destruct (_started (coord w)); simpl; [|done].
  destruct (_executor (coord w)) as [[|]|]; simpl; try done.
  specialize (Hread w). destruct (work w) as [r w']. simpl in *. subst w'.
  by destruct (RedisFutureResult.get _ timeout) as [elapsed r'|].
Qed.

(** X10: [get_members], [get_member_capabilities] and [get_groups]
    only read: in every state of the driver and of the store, with every
    outcome, the world after the call and its [get()] is the world
    before. *)
Theorem reading_operations_change_nothing {capabilities : Type}
    (msgpack_loads : string -> option capabilities)
    (w : world) (g member_id : string) (timeout : option (option Q)) :
  (get_of (get_members g) timeout w).2 = w
  ∧ (get_of (get_member_capabilities msgpack_loads g member_id) timeout w).2
    = w
  ∧ (get_of get_groups timeout w).2 = w.
Proof.
  split; [|split].
  - unfold get_members. rewrite get_of_bind. unfold bind at 1, get_coord.
    rewrite get_of_bind. unfold bind at 1, the_client.
    destruct (_client (coord w)); [|done].
    apply get_of_submit_read_only. intros w0.
    unfold transaction, _get_members. solve_body.
  - unfold get_member_capabilities.
    rewrite get_of_bind. unfold bind at 1, get_coord.
    rewrite get_of_bind. unfold bind at 1, lift.
    destruct (_encode_member_id member_id) as [m| |]; try done.
    rewrite get_of_bind. unfold bind at 1, the_client.
    destruct (_client (coord w)); [|done].
    apply get_of_submit_read_only. intros w0.
    unfold transaction, _get_member_capabilities, _loads. solve_body.
  - unfold get_groups. apply get_of_submit_read_only. intros w0.
    unfold _get_groups. solve_body.
Qed.

(** ** Locks: [acquire], [heartbeat], [get_lock] *)

(** X11: [acquire(blocking)] sends one request to the store's lock,
    non-blocking for [False], blocking without a bound for [True] and
    blocking with the bound for a duration. When the store grants the
    lock the flag is set and the lock is added to [_acquired_locks]; when
    it refuses, the flag is cleared and the set is as before; when the
    request raises, the exception is translated and the flag and the set
    are as before. *)
Theorem acquire_records_the_stores_answer (w : world) (l : nat)
    (o : RedisLock) (blocking : blocking_arg) (reply : result bool) :
  heap w !! l = Some o ->
  let '(r, w') := Lock.acquire l blocking reply w in
  calls w' = acquire_request (_name o) blocking :: calls w
  ∧ store w' = store w
  ∧ match reply with
    | Ok true =>
        r = Ok true ∧ held_flag w' l = Some true
        ∧ _acquired_locks (coord w') = {[l]} ∪ _acquired_locks (coord w)
    | Ok false =>
        r = Ok false ∧ held_flag w' l = Some false
        ∧ _acquired_locks (coord w') = _acquired_locks (coord w)
    | Raise e =>
        r = _translate_failures (Raise e)
        ∧ coord w' = coord w ∧ heap w' = heap w
    | Blocked => r = Blocked ∧ coord w' = coord w ∧ heap w' = heap w
    end.
Proof.
  intros Hl. unfold_lock. rewrite Hl. simpl.
  destruct blocking; simpl;
    (destruct reply as [[|]|e|]; simpl; repeat split; try done;
     by rewrite lookup_alter_eq, Hl).
Qed.

Lemma acquire_records_the_stores_answer_witness :
  let w := (get_lock "res" (started_world "m1")).2 in
  let '(r, w') := Lock.acquire 0 (BDuration (1 # 2)) (Ok true) w in
  calls w' = LockAcquire "_tooz_res_lock" true (Some (1 # 2)%Q) :: calls w
  ∧ store w' = store w
  ∧ r = Ok true ∧ held_flag w' 0 = Some true
  ∧ _acquired_locks (coord w') = {[0]} ∪ _acquired_locks (coord w).
Proof.
  intros w.
  apply (acquire_records_the_stores_answer w 0
           (mkRedisLock "_tooz_res_lock" 30 false)
           (BDuration (1 # 2)) (Ok true) eq_refl).
Defined.

(** X12: the [heartbeat] of a lock whose flag is clear sends nothing;
    with the flag set it asks the store once to extend the lease by the
    lock's timeout. It never changes the flag or [_acquired_locks]: when
    the store answers that the lease is lost ([LockError]) the caller
    gets a [ToozError] and the lock is still recorded as held. *)
Theorem lock_heartbeat_extends_by_the_timeout (w : world) (l : nat)
    (o : RedisLock) (reply : result unit) :
  heap w !! l = Some o ->
  (_acquired o = false -> Lock.heartbeat l reply w = (Ok tt, w))
  ∧ (_acquired o = true ->
     Lock.heartbeat l reply w
     = (_translate_failures reply,
        log_call (LockExtend (_name o) (_lock_timeout o)) w))
  ∧ (_acquired o = true ->
     Lock.heartbeat l (Raise RedisLockError) w
     = (Raise ToozError,
        log_call (LockExtend (_name o) (_lock_timeout o)) w)).
Proof.
  intros Hl. repeat split; intros Ha; unfold_lock; rewrite Hl, Ha; simpl;
    try done; by destruct reply as [[]|e|].
Qed.

Lemma lock_heartbeat_extends_by_the_timeout_witness :
  let w := (Lock.acquire 0 BTrue (Ok true)
              (get_lock "res" (started_world "m1")).2).2 in
  Lock.heartbeat 0 (Raise RedisLockError) w
  = (Raise ToozError, log_call (LockExtend "_tooz_res_lock" 30) w).
Proof.
  intros w.
  apply (proj2 (proj2 (lock_heartbeat_extends_by_the_timeout w 0
                         (mkRedisLock "_tooz_res_lock" 30 true)
                         (Ok tt) eq_refl)) eq_refl).
Defined.

(** ** The driver's [heartbeat] and [_start] *)

Lemma heartbeat_locks_spec extend_reply ls : forall w,
  (forall l, l ∈ ls -> is_Some (heap w !! l)) ->
  (forall l, store_reply (extend_reply l) = true) ->
  heartbeat_locks ls extend_reply w
  = (Ok tt,
     mkWorld (store w) (coord w) (heap w)
       (rev (extend_requests (heap w) ls) ++ calls w)).
Proof.
  induction ls as [|l ls IH]; intros w Halloc Hreply.
  - simpl. unfold ret. by destruct w.
  - cbn [heartbeat_locks].
    destruct (Halloc l (list_elem_of_here _ _)) as [o Hl].
    assert (Halloc' : forall l', l' ∈ ls -> is_Some (heap w !! l'))
      by (intros l' Hl'; by apply Halloc, list_elem_of_further).
    unfold extend_requests. cbn [flat_map]. rewrite Hl.
    fold (extend_requests (heap w) ls).
    unfold Lock.heartbeat, Lock.deref, bind at 1. rewrite Hl.
    destruct (_acquired o) eqn:Ha.
    + unfold with_translate_failures, send, lift, bind.
      pose proof (Hreply l) as Hrl.
      assert (Hnext :
        heartbeat_locks ls extend_reply
          (log_call (LockExtend (_name o) (_lock_timeout o)) w)
        = (Ok tt,
           mkWorld (store w) (coord w) (heap w)
             (rev ([LockExtend (_name o) (_lock_timeout o)]
                   ++ extend_requests (heap w) ls) ++ calls w))).
      { rewrite IH by done. simpl. by rewrite <- app_assoc. }
      destruct (extend_reply l) as [[]|e|]; [done| |done].
      by destruct e.
    + unfold ret. simpl. by apply IH.
Qed.

Lemma heartbeat_spec ping_reply extend_reply w :
  _client (coord w) = true ->
  held_locks_allocated w ->
  (forall l, store_reply (extend_reply l) = true) ->
  store_reply ping_reply = true ->
  heartbeat ping_reply extend_reply w
  = match ping_reply with
    | Raise e => (Raise (translated e), log_call Ping w)
    | _ =>
        (Ok tt,
         mkWorld (store w) (coord w) (heap w)
           (rev (extend_requests (heap w)
                   (elements (_acquired_locks (coord w))))
            ++ Ping :: calls w))
    end.
Proof.
  intros Hc Halloc Hreply Hping.
  unfold heartbeat, with_translate_failures, the_client, send, lift,
    get_coord, bind.
  rewrite Hc.
  destruct ping_reply as [[]|e|]; [|by destruct e|done]. simpl.
  rewrite heartbeat_locks_spec; [done| |done].
  intros l Hl. apply Halloc. by apply elem_of_elements in Hl.
Qed.

(** X13: the driver's [heartbeat] pings the store and then asks it to
    extend every lock of [_acquired_locks] whose flag is set; an error of
    the store for one lock (a lost lease, a dropped connection) is
    logged, the remaining locks are still extended and the call returns.
    When the ping itself fails the error is raised translated and no lock
    is extended. The driver, the locks and the stored groups are as
    before. *)
Theorem heartbeat_extends_every_held_lock (w : world)
    (ping_reply : result unit) (extend_reply : nat -> result unit) :
  _client (coord w) = true ->
  held_locks_allocated w ->
  (forall l, store_reply (extend_reply l) = true) ->
  heartbeat (Ok tt) extend_reply w
  = (Ok tt,
     mkWorld (store w) (coord w) (heap w)
       (rev (extend_requests (heap w) (elements (_acquired_locks (coord w))))
        ++ Ping :: calls w))
  ∧ (forall e, is_RedisError e = true ->
       heartbeat (Raise e) extend_reply w
       = (Raise (translated e), log_call Ping w)).
Proof.
  intros Hc Halloc Hreply. split.
  - by rewrite heartbeat_spec.
  - intros e He. by rewrite heartbeat_spec.
Qed.

Lemma heartbeat_extends_every_held_lock_witness :
  let w := (Lock.acquire 0 BTrue (Ok true)
              (get_lock "res" (started_world "m1")).2).2 in
  heartbeat (Ok tt) (fun _ => Raise RedisLockError) w
  = (Ok tt,
     mkWorld (store w) (coord w) (heap w)
       (rev (extend_requests (heap w) (elements (_acquired_locks (coord w))))
        ++ Ping :: calls w)).
Proof.
  intros w.
  apply (heartbeat_extends_every_held_lock w (Ok tt)
           (fun _ => Raise RedisLockError)).
  - reflexivity.
  - apply (bool_decide_unpack _). vm_compute. exact I.
  - intros l. reflexivity.
Defined.

(** X14: [_start] makes the executor and the client and checks the
    store with one heartbeat. When the store answers the driver is
    running afterwards; when the ping fails the error is raised
    translated and [_started] stays as it was, with the executor and the
    client already in place. Nothing else of the driver changes. *)
Theorem start_runs_the_driver_when_the_store_answers (w : world)
    (extend_reply : nat -> result unit) :
  held_locks_allocated w ->
  (forall l, store_reply (extend_reply l) = true) ->
  (exists w',
     _start (Ok tt) extend_reply w = (Ok tt, w')
     ∧ running (coord w')
     ∧ coord w' = set_lifecycle true (Some ExecutorRunning) true (coord w)
     ∧ store w' = store w ∧ heap w' = heap w)
  ∧ (forall e, is_RedisError e = true ->
       exists w',
         _start (Raise e) extend_reply w = (Raise (translated e), w')
         ∧ coord w'
           = set_lifecycle true (Some ExecutorRunning) (_started (coord w))
               (coord w)
         ∧ store w' = store w ∧ heap w' = heap w).
Proof.
  intros Halloc Hreply.
  set (w1 := set_coord
               (set_lifecycle true (Some ExecutorRunning)
                  (_started (coord w)) (coord w)) w).
  assert (Hstart : forall ping,
    _start ping extend_reply w
    = bind (heartbeat ping extend_reply)
        (fun _ => modify_coord
                    (fun d => set_lifecycle (_client d) (_executor d) true d))
        w1) by done.
  assert (Hc1 : _client (coord w1) = true) by done.
  assert (Halloc1 : held_locks_allocated w1) by exact Halloc.
  split.
  - eexists. rewrite Hstart. unfold bind.
    rewrite heartbeat_spec by done. simpl.
    split; [reflexivity|]. by repeat split.
  - intros e He. eexists. rewrite Hstart. unfold bind.
    rewrite heartbeat_spec by done. simpl.
    split; [reflexivity|]. by repeat split.
Qed.

Lemma start_runs_the_driver_when_the_store_answers_witness :
  let w := mkWorld ∅ (RedisDriver_init "m1" "_tooz" 30) ∅ [] in
  exists w',
    _start (Ok tt) (fun _ => Ok tt) w = (Ok tt, w')
    ∧ running (coord w')
    ∧ coord w' = set_lifecycle true (Some ExecutorRunning) true (coord w)
    ∧ store w' = store w ∧ heap w' = heap w.
Proof.
  intros w.
  apply (start_runs_the_driver_when_the_store_answers w (fun _ => Ok tt)).
  - apply (bool_decide_unpack _). vm_compute. exact I.
  - intros l. reflexivity.
Defined.

(** X15: on a driver that has a client (it was started and not
    stopped), [get_lock] makes a new lock object, named after the
    namespace and the resource, with its flag clear; no request is sent,
    the driver and the other lock objects are as before, and the new
    object is not in [_acquired_locks]. On a driver without a client
    (never started, or stopped) the constructor's [client.lock] raises
    [AttributeError] and no lock object is made. *)
Theorem get_lock_makes_a_fresh_lock (w : world) (name : string) :
  held_locks_allocated w ->
  (_client (coord w) = true ->
   exists l w',
     get_lock name w = (Ok l, w')
     ∧ heap w !! l = None
     ∧ heap w' !! l
       = Some (mkRedisLock (_namespace (coord w) +:+ "_" +:+ name +:+ "_lock")
                 (lock_timeout (coord w)) false)
     ∧ (forall l', l' ≠ l -> heap w' !! l' = heap w !! l')
     ∧ coord w' = coord w ∧ store w' = store w ∧ calls w' = calls w
     ∧ (l ∉ _acquired_locks (coord w'))
     ∧ held_locks_allocated w')
  ∧ (_client (coord w) = false ->
     get_lock name w = (Raise AttributeError, w)).
Proof.
  intros Halloc. unfold get_lock, bind, the_client. split; intros Hc;
    rewrite Hc; [|done].
  set (l := fresh (dom (heap w))).
  assert (Hfresh : heap w !! l = None)
    by (apply not_elem_of_dom, is_fresh).
  exists l. eexists. split; [reflexivity|]. simpl.
  split; [done|]. split; [by rewrite lookup_insert_eq|].
  split; [intros l' Hne; by rewrite lookup_insert_ne|].
  split; [done|]. split; [done|]. split; [done|]. split.
  - intros Hin. apply Halloc in Hin. rewrite Hfresh in Hin.
    by destruct Hin.
  - intros l' Hin. simpl.
    destruct (decide (l' = l)) as [->|Hne].
    + rewrite lookup_insert_eq. eauto.
    + rewrite lookup_insert_ne by done. by apply Halloc.
Qed.

Lemma get_lock_makes_a_fresh_lock_witness :
  let w := (get_lock "a" (started_world "m1")).2 in
  let stopped_w := mkWorld ∅ (RedisDriver_init "m1" "_tooz" 30) ∅ [] in
  (exists l w',
     get_lock "b" w = (Ok l, w')
     ∧ heap w !! l = None
     ∧ heap w' !! l = Some (mkRedisLock "_tooz_b_lock" 30 false)
     ∧ (forall l', l' ≠ l -> heap w' !! l' = heap w !! l')
     ∧ coord w' = coord w ∧ store w' = store w ∧ calls w' = calls w
     ∧ (l ∉ _acquired_locks (coord w'))
     ∧ held_locks_allocated w')
  ∧ get_lock "b" stopped_w = (Raise AttributeError, stopped_w).
Proof.
  intros w stopped_w. split.
  - apply (get_lock_makes_a_fresh_lock w "b").
    + apply (bool_decide_unpack _). vm_compute. exact I.
    + reflexivity.
  - apply (get_lock_makes_a_fresh_lock stopped_w "b").
    + apply (bool_decide_unpack _). vm_compute. exact I.
    + reflexivity.
Defined.

(** ** [_stop] *)









(** ** Sequences of group operations *)





Section CallStep.

Context {capabilities : Type}.
Variable msgpack_dumps : capabilities -> result string.
Variable w : world.
Hypothesis Hrun : running (coord w).
Hypothesis Hmember : _member_id (coord w) ≠ _GROUP_EXISTS.
Hypothesis Hinv : store_inv (coord w) (store w).










End CallStep.



(** The group of the witness is still created, with no member, after its
    only member left. *)
Example group_survives_its_last_member :
  let w' := run_calls (@Ok string)
              [CallCreate "g"; CallJoin "g" "caps"; CallLeave "g"]
              (started_world "m1") in
  (get_of (get_members "g") None w').1 = Ok [].
Proof. vm_compute. reflexivity. Qed.

(** ** Polling twice *)

Lemma run_watchers_world w timeout :
  running (coord w) ->
  store_wf (coord w) (store w) ->
  registry_created (coord w) (store w) ->
  exists gm',
    run_watchers timeout w
    = (Ok (flat_map (poll_events (coord w) (store w))
             (elements (registry (coord w) (store w)))),
       set_coord (set_group_members (fun _ => gm') (coord w)) w)
    ∧ forall g,
        default ∅ (gm' !! g)
        = if decide (g ∈ registry (coord w) (store w))
          then current_members (coord w) (store w) g
          else snapshot (coord w) g.
Proof.
  intros Hrun Hwf Hcreated.
  destruct (run_watchers_loop_spec timeout
              (elements (registry (coord w) (store w))) w)
    as (gm' & Hloop & Hsnap).
  { exact Hrun. }
  { apply NoDup_elements. }
  { intros g Hg. apply Hcreated. by apply elem_of_elements. }
  exists gm'. split.
  - unfold run_watchers. unfold bind at 1.
    rewrite get_groups_registry by done. exact Hloop.
  - intros g. rewrite Hsnap.
    destruct (decide (g ∈ registry (coord w) (store w))) as [Hin|Hnin].
    + rewrite decide_True; [done|]. by apply elem_of_elements.
    + rewrite decide_False; [done|]. by rewrite elem_of_elements.
Qed.

Lemma flat_map_all_nil {A B} (f : A -> list B) (l : list A) :
  (forall a, a ∈ l -> f a = []) -> flat_map f l = [].
Proof.
  induction l as [|a l IH]; intros H; simpl; [done|].
  rewrite (H a) by apply list_elem_of_here.
  apply IH. intros a' Ha'. by apply H, list_elem_of_further.
Qed.

(** X18: a poll brings every snapshot up to date, so a second
    [run_watchers] right after it, with no membership change in between,
    calls no callback at all and leaves the snapshots as they are. *)
Theorem second_poll_calls_nothing (w : world) (timeout timeout' : option Q) :
  running (coord w) ->
  store_wf (coord w) (store w) ->
  registry_created (coord w) (store w) ->
  exists evs w1 w2,
    run_watchers timeout w = (Ok evs, w1)
    ∧ run_watchers timeout' w1 = (Ok [], w2)
    ∧ forall g, snapshot (coord w2) g = snapshot (coord w1) g.
Proof.
  intros Hrun Hwf Hcreated.
  destruct (run_watchers_world w timeout Hrun Hwf Hcreated)
    as (gm1 & Hfirst & Hsnap1).
  set (w1 := set_coord (set_group_members (fun _ => gm1) (coord w)) w) in *.
  assert (Hrun1 : running (coord w1)) by exact Hrun.
  assert (Hwf1 : store_wf (coord w1) (store w1)) by exact Hwf.
  assert (Hcreated1 : registry_created (coord w1) (store w1))
    by exact Hcreated.
  destruct (run_watchers_world w1 timeout' Hrun1 Hwf1 Hcreated1)
    as (gm2 & Hsecond & Hsnap2).
  assert (Hup : forall g, g ∈ registry (coord w) (store w) ->
                  snapshot (coord w1) g
                  = current_members (coord w1) (store w1) g).
  { intros g Hg. unfold snapshot. simpl. rewrite Hsnap1.
    by rewrite decide_True. }
  do 3 eexists. split; [exact Hfirst|]. split.
  - rewrite Hsecond. f_equal. f_equal.
    apply flat_map_all_nil. intros g Hg.
    apply poll_events_up_to_date, Hup. by apply elem_of_elements in Hg.
  - intros g. unfold snapshot at 1. simpl. rewrite Hsnap2.
    destruct (decide (g ∈ registry (coord w1) (store w1))) as [Hin|Hnin];
      [|done].
    symmetry. by apply Hup.
Qed.

Lemma second_poll_calls_nothing_witness :
  let w :=
    (get_of (join_group (@Ok string) "g" "caps") None
       (watch_join_group "g" 7
          (get_of (create_group "g") None (started_world "m1")).2).2).2 in
  exists evs w1 w2,
    run_watchers None w = (Ok evs, w1)
    ∧ run_watchers None w1 = (Ok [], w2)
    ∧ forall g, snapshot (coord w2) g = snapshot (coord w1) g.
Proof.
  intros w. apply (second_poll_calls_nothing w None None).
  - repeat split; reflexivity.
  - apply (bool_decide_unpack _). vm_compute. exact I.
  - apply (bool_decide_unpack _). vm_compute. exact I.
Defined.

(** ** Keys of one namespace *)

Lemma leader_key_not_registry d g : _encode_group_leader d g ≠ _groups d.
Proof.
  unfold _encode_group_leader, _groups, _leader_prefix, _NAMESPACE_SEP.
  induction (_namespace d) as [|c ns IH]; simpl.
  - discriminate.
  - intros H. injection H as H. contradiction.
Qed.

Lemma group_key_not_leader_key d g g' :
  _encode_group_id d g ≠ _encode_group_leader d g'.
Proof.
  unfold _encode_group_id, _encode_group_leader, _group_prefix,
    _leader_prefix, _NAMESPACE_SEP.
  induction (_namespace d) as [|c ns IH]; simpl.
  - discriminate.
  - intros H. injection H as H. contradiction.
Qed.

Lemma encode_group_leader_inj d g1 g2 :
  _encode_group_leader d g1 = _encode_group_leader d g2 -> g1 = g2.
Proof.
  unfold _encode_group_leader, _leader_prefix, _NAMESPACE_SEP.
  induction (_namespace d) as [|c ns IH]; simpl.
  - intros H. by injection H.
  - intros H. injection H as H. by apply IH.
Qed.

(** X19: within one namespace the keys do not collide: the hash key of
    a group is never the registry key nor the leader key of any group,
    no leader key is the registry key, and two different group ids have
    different hash keys and different leader keys. *)
Theorem keys_of_a_namespace_do_not_collide (d : RedisDriver)
    (g g' : string) :
  _encode_group_id d g ≠ _groups d
  ∧ _encode_group_leader d g ≠ _groups d
  ∧ _encode_group_id d g ≠ _encode_group_leader d g'
  ∧ (g ≠ g' -> _encode_group_id d g ≠ _encode_group_id d g')
  ∧ (g ≠ g' -> _encode_group_leader d g ≠ _encode_group_leader d g').
Proof.
  split; [apply group_key_not_registry|].
  split; [apply leader_key_not_registry|].
  split; [apply group_key_not_leader_key|].
  split; intros Hne E; apply Hne.
  - by apply encode_group_id_inj in E.
  - by apply encode_group_leader_inj in E.
Qed.

Lemma keys_of_a_namespace_do_not_collide_witness :
  _encode_group_id (RedisDriver_init "m1" "_tooz" 30) "s"
  ≠ _encode_group_id (RedisDriver_init "m1" "_tooz" 30) "".
Proof.
  apply (proj1 (proj2 (proj2 (proj2
           (keys_of_a_namespace_do_not_collide
              (RedisDriver_init "m1" "_tooz" 30) "s" ""))))).
  discriminate.
Defined.

(** ** [done] and [get] *)

(** X20: when [done()] answers true, [get(timeout)] returns at once,
    for every timeout (an explicit [None] and a negative one included):
    the value of the work, or its exception with the store's errors
    translated. *)
Theorem get_of_a_done_result_returns_at_once {A : Type} (fut : future A)
    (timeout : option (option Q)) :
  RedisFutureResult.done fut = true ->
  exists elapsed,
    RedisFutureResult.get fut timeout
    = Returned elapsed
        (except_futures_timeout (_translate_failures (outcome fut)))
    ∧ (elapsed == 0)%Q.
Proof.
  unfold RedisFutureResult.done, Future_done, RedisFutureResult.get,
    Future_result.
  destruct (completes_in fut) as [d|]; [|done].
  intros Hd. apply Qle_bool_iff in Hd.
  assert (Hmax : (Qmax 0 d == 0)%Q) by by apply Q.max_l.
  assert (Hle : forall t, Qle_bool d (Qmax 0 t) = true).
  { intros t. apply Qle_bool_iff.
    eapply Qle_trans; [exact Hd|apply Q.le_max_l]. }
  destruct timeout as [[t|]|]; rewrite ?Hle; eexists; split; done.
Qed.

Lemma get_of_a_done_result_returns_at_once_witness :
  exists elapsed,
    RedisFutureResult.get (mkFuture (Some 0%Q) (@Raise unit RedisLockError))
      (Some (Some (-1)%Q))
    = Returned elapsed (Raise ToozError)
    ∧ (elapsed == 0)%Q.
Proof.
  apply (get_of_a_done_result_returns_at_once
           (mkFuture (Some 0%Q) (@Raise unit RedisLockError))
           (Some (Some (-1)%Q))).
  reflexivity.
Defined.
